(** * 07-nyc-taxi-futures: the row-group loader and the futures pattern

  A shallow embedding of the code cells of
  [notebooks/07-nyc-taxi-futures.ipynb]:

  - [read_row_group] (cell 3), which pre-allocates a frame for one row
    group and fills it in place through its views;
  - the remote cells: [client.submit], [client.map], [Future.result],
    and the total-passengers answer [f] / [client.map] /
    [client.submit(sum, counts)];
  - the weighted mean of the specification, over per-chunk (sum, count)
    pairs.

  The notebook is glue over fastparquet, gcsfs, pandas and
  dask.distributed.  None of these libraries is part of the repository;
  the calls the notebook makes into them are modelled in the modules
  [Frame], [Fastparquet] and [Distributed], each definition saying what
  it stands for. *)

From stdpp Require Import gmap strings list fin_maps.
From Stdlib Require Import ZArith QArith Lia Permutation.

Close Scope Q_scope.

(** ** Errors and results *)

Abbreviation key := nat (only parsing).
Abbreviation worker := nat (only parsing).

(** The error kinds of the specification (section 7), together with the
    exceptions a Python callable raises by itself. [Unmodelled] is raised
    by the model only: the operation needs floating point or NaN filling. *)
Inductive error : Type :=
| SchemaMismatch
| SourceUnavailable
| Timeout
| CyclicDependency
| PyExn (name : string)
| Unmodelled
| RemoteTaskFailure (cause : error) (w : worker) (k : key).

Inductive res (A : Type) : Type :=
| Ok (a : A)
| Err (e : error).
Arguments Ok {A} a.
Arguments Err {A} e.

Definition is_Ok {A} (r : res A) : Prop := ∃ a, r = Ok a.

Definition res_bind {A B} (r : res A) (k : A → res B) : res B :=
  match r with
  | Ok a => k a
  | Err e => Err e
  end.

Fixpoint res_mapM {A B} (g : A → res B) (l : list A) : res (list B) :=
  match l with
  | [] => Ok []
  | x :: l' => res_bind (g x) (λ y, res_bind (res_mapM g l') (λ ys, Ok (y :: ys)))
  end.

(** ** pandas frames *)

Module Frame.

Inductive dtype : Type := Int64 | Float64 | Datetime64 | Category.

Definition dtype_eqb (a b : dtype) : bool :=
  match a, b with
  | Int64, Int64 | Float64, Float64
  | Datetime64, Datetime64 | Category, Category => true
  | _, _ => false
  end.

(** Modelled from the spec: pandas is not part of the repository. A
    column is a named, typed array (section 3); a cell is the 64-bit
    content of one slot, the integer itself for [Int64]. *)
Record column : Type := Column {
  col_name : string;
  col_dtype : dtype;
  cells : list Z
}.

(** Modelled from the spec: the in-memory table of section 3, an index
    of [df_len] rows and an ordered sequence of columns. *)
Record DataFrame : Type := MkFrame {
  df_len : nat;
  df_columns : list column
}.

(** Two's-complement wrap-around of numpy's [int64] arithmetic. *)
Definition wrap64 (z : Z) : Z := ((z + 2 ^ 63) mod 2 ^ 64 - 2 ^ 63)%Z.

Definition Zsum (l : list Z) : Z := foldr Z.add 0%Z l.

Definition same_layout (a b : column) : bool :=
  String.eqb (col_name a) (col_name b) && dtype_eqb (col_dtype a) (col_dtype b).

(** Modelled from the spec: attribute access on a pandas frame is not
    part of the repository. [df.<name>] is the first column of that
    name, [AttributeError] when there is none. *)
Fixpoint getattr (cols : list column) (name : string) : res column :=
  match cols with
  | [] => Err (PyExn "AttributeError")
  | c :: cols' => if String.eqb (col_name c) name then Ok c else getattr cols' name
  end.

(** Modelled from the spec: [pandas.concat] is not part of the
    repository. Row-wise append of two frames with the same columns;
    pandas aligns differing columns by name and fills with NaN, which
    is outside the integer model. *)
Fixpoint append_columns (a b : list column) : res (list column) :=
  match a, b with
  | [], [] => Ok []
  | ca :: a', cb :: b' =>
      if same_layout ca cb then
        res_bind (append_columns a' b') (λ r,
          Ok (Column (col_name ca) (col_dtype ca) (cells ca ++ cells cb) :: r))
      else Err Unmodelled
  | _, _ => Err Unmodelled
  end.

Definition append (a b : DataFrame) : res DataFrame :=
  res_bind (append_columns (df_columns a) (df_columns b)) (λ cols,
    Ok (MkFrame (df_len a + df_len b) cols)).

Fixpoint concat_from (acc : DataFrame) (l : list DataFrame) : res DataFrame :=
  match l with
  | [] => Ok acc
  | d :: l' => res_bind (append acc d) (λ acc', concat_from acc' l')
  end.

(** [pd.concat(frames)]: [ValueError] on an empty list. *)
Definition concat (l : list DataFrame) : res DataFrame :=
  match l with
  | [] => Err (PyExn "ValueError")
  | d :: l' => concat_from d l'
  end.

End Frame.
Export Frame.

(** ** The fastparquet calls of [read_row_group] *)

Module Fastparquet.

(** Modelled from the spec: the row-group metadata of fastparquet is not
    part of the repository. A column chunk has its name, its byte offset
    and, when the data is not in the dataset's own file, the path of the
    file that holds it. *)
Record column_chunk : Type := Chunk {
  path_in_schema : string;
  file_offset : nat;
  file_path : option string
}.

(** Modelled from the spec: a partition handle carries its declared row
    count and its column chunks, as in the specification's data model. *)
Record row_group : Type := RowGroup {
  num_rows : nat;
  rg_columns : list column_chunk
}.

(** Modelled from the spec: [fastparquet.ParquetFile] is not part of the
    repository; the notebook reads [pf.dtypes], [pf.schema],
    [pf.row_groups] and calls [pf.row_group_filename]. *)
Record ParquetFile : Type := {
  pf_fn : string;
  dtypes : gmap string dtype;
  schema : list string;
  row_groups : list row_group
}.

(** A stored file: the pages of each column chunk, by chunk offset. *)
Abbreviation file := (gmap nat (list (list Z))).

(** [gcs]: the bucket behind [gcs.open]. *)
Abbreviation GCSFileSystem := (gmap string file).

(** The accesses to the storage: opening a file, and reading the bytes
    of a column chunk from the opened file. *)
Inductive event : Type :=
| Open (fn : string)
| Read (offset : nat).

(** The loader runs over a store of arrays (the frame and its views
    share them) and leaves a log of its storage accesses; the log is
    kept when the loader fails. The bucket does not change during a
    call: transient failures of the storage are outside the model. *)
Record lstate : Type := LState {
  heap : list (list Z);
  io_log : list event
}.

Definition L (A : Type) : Type := lstate → res A * lstate.

#[export] Instance L_ret : MRet L := λ A a s, (Ok a, s).
#[export] Instance L_bind : MBind L := λ A B k m s,
  match m s with
  | (Ok a, s') => k a s'
  | (Err e, s') => (Err e, s')
  end.

Definition raise {A} (e : error) : L A := λ s, (Err e, s).

(** A frame under construction: each column names the array that
    holds its cells. *)
Record slot : Type := Slot {
  slot_name : string;
  slot_dtype : dtype;
  slot_ref : nat
}.

Record frame : Type := Frame_ {
  fr_len : nat;
  fr_slots : list slot
}.

Abbreviation views := (gmap string nat).

(** Modelled from the spec: numpy is not part of the repository.
    [np.empty(size)] is a fresh array of [size] cells. What an
    unwritten cell holds is whatever the memory held; the model fixes 0,
    so that statements about cell values are meant for cells that a
    chunk writes. *)
Definition np_empty (size : nat) : L nat := λ s,
  (Ok (length (heap s)), LState (heap s ++ [replicate size 0%Z]) (io_log s)).

Definition has_name (name : string) (l : list string) : bool :=
  bool_decide (name ∈ l).

(** Modelled from the spec: the type lookup of
    [fastparquet.api._pre_allocate] is not part of the repository. A
    name listed in [categories] is categorical; any other takes its type
    from [dt], and a name that [dt] does not know takes numpy's default,
    [float64]. *)
Definition get_type (categories : list string) (dt : gmap string dtype)
    (name : string) : dtype :=
  if has_name name categories then Category
  else default Float64 (dt !! name).

(** Modelled from the spec: [fastparquet.dataframe.empty] is not part
    of the repository. One array of [size] cells per column; a repeated
    name is allocated once. The views address the same arrays as the
    frame. *)
Fixpoint empty (cols : list (string * dtype)) (size : nat)
    (done : list slot) (vs : views) : L (list slot * views) :=
  match cols with
  | [] => mret (done, vs)
  | (name, t) :: cols' =>
      match vs !! name with
      | Some _ => empty cols' size done vs
      | None =>
          r ← np_empty size;
          empty cols' size (done ++ [Slot name t r]) (<[name := r]> vs)
      end
  end.

(** Modelled from the spec: [fastparquet.api._pre_allocate] is not part
    of the repository. It builds the empty frame the loader returns: the
    names of [columns] other than [index], then one categorical column
    per partition category of [cs]. *)
Definition _pre_allocate (size : nat) (columns categories : list string)
    (index : option string) (cs : list string) (dt : gmap string dtype)
    : L (frame * views) :=
  let cols := filter (λ c, index ≠ Some c) columns in
  let typed := (λ c, (c, get_type categories dt c)) <$> cols in
  let parts := (λ c, (c, Category)) <$> cs in
  '(slots, vs) ← empty (typed ++ parts) size [] ∅;
  mret (Frame_ size slots, vs).

(** Modelled from the spec: gcsfs is not part of the repository.
    [gcs.open(fn, mode='rb')] is one access to the storage, which fails
    with [SourceUnavailable] when the file cannot be reached. *)
Definition gcs_open (gcs : GCSFileSystem) (fn : string) : L file := λ s,
  let s' := LState (heap s) (io_log s ++ [Open fn]) in
  match gcs !! fn with
  | Some f => (Ok f, s')
  | None => (Err SourceUnavailable, s')
  end.

(** Modelled from the spec: numpy is not part of the repository.
    [piece = assign[num:num+len(page)]; piece[:] = page]: the slice is
    clipped to the array. A page as long as the slice overwrites it in
    place; a one-value page is broadcast over a shorter slice, which is
    then empty, so that nothing is written and nothing raised; any other
    page is refused with [ValueError]. *)
Definition write_page (r : nat) (num : nat) (page : list Z) : L nat := λ s,
  match heap s !! r with
  | None => (Err (PyExn "KeyError"), s)
  | Some a =>
      if decide (length page ≤ length a - num) then
        (Ok (num + length page),
         LState (<[r := take num a ++ page ++ drop (num + length page) a]> (heap s))
                (io_log s))
      else if decide (length page = 1) then (Ok (num + length page), s)
      else (Err (PyExn "ValueError"), s)
  end.

Fixpoint write_pages (r : nat) (num : nat) (pages : list (list Z)) : L unit :=
  match pages with
  | [] => mret ()
  | p :: pages' => num' ← write_page r num p; write_pages r num' pages'
  end.

(** Modelled from the spec: reading from a file opened with gcsfs is not
    part of the repository. Reading the bytes of a column chunk is an
    access to the storage; bytes that are no column chunk do not
    decode. *)
Definition read_at (f : file) (offset : nat) : L (list (list Z)) := λ s,
  let s' := LState (heap s) (io_log s ++ [Read offset]) in
  match f !! offset with
  | Some pages => (Ok pages, s')
  | None => (Err (PyExn "ParquetException"), s')
  end.

(** Modelled from the spec: [fastparquet.core.read_col] is not part of
    the repository. It reads the pages of one column chunk and decodes
    them into the view it is given. *)
Definition read_col (c : column_chunk) (f : file) (assign : nat) : L unit :=
  pages ← read_at f (file_offset c);
  write_pages assign 0 pages.

Fixpoint read_chunks (chunks : list column_chunk) (columns cats : list string)
    (f : file) (assign : views) : L unit :=
  match chunks with
  | [] => mret ()
  | c :: chunks' =>
      let name := path_in_schema c in
      if negb (has_name name columns) || has_name name cats then
        read_chunks chunks' columns cats f assign
      else
        match assign !! name with
        | None => raise (PyExn "KeyError")
        | Some r => _ ← read_col c f r; read_chunks chunks' columns cats f assign
        end
  end.

(** Modelled from the spec: [fastparquet.core.read_row_group_file] is
    not part of the repository. It opens the file of the row group with
    the opener it is given, then reads every column chunk of the row
    group whose name is requested, in place, through [assign]. *)
Definition read_row_group_file (fn : string) (rg : row_group)
    (columns categories : list string) (schema_helper : list string)
    (cats : list string) (open : string → L file) (assign : views) : L unit :=
  f ← open fn;
  read_chunks (rg_columns rg) columns cats f assign.

(** Python's [s.replace(pat, '')] for a non-empty [pat]: the occurrences
    of [pat] are dropped from left to right; [skip] counts what is left
    to drop of the occurrence at hand. *)
Fixpoint str_remove (pat : string) (skip : nat) (s : string) : string :=
  match s with
  | EmptyString => EmptyString
  | String a s' =>
      match skip with
      | S k => str_remove pat k s'
      | O =>
          if String.prefix pat s then str_remove pat (String.length pat - 1) s'
          else String a (str_remove pat 0 s')
      end
  end.

(** Python's [s.rstrip('/')]. *)
Fixpoint rstrip_slash (s : string) : string :=
  match s with
  | EmptyString => EmptyString
  | String a s' =>
      match rstrip_slash s' with
      | EmptyString => if String.eqb (String a EmptyString) "/" then EmptyString else String a EmptyString
      | r => String a r
      end
  end.

(** Modelled from the spec: [ParquetFile.row_group_filename] is not part
    of the repository. The file is the one the first column chunk of the
    row group names, joined with [/] to the dataset's path without
    [_metadata] and trailing slashes (the bare path when nothing is left
    of the dataset's path); a row group without chunks, or whose first
    chunk names no file, is in the dataset's own file. *)
Definition row_group_filename (pf : ParquetFile) (rg : row_group) : string :=
  match rg_columns rg with
  | c :: _ =>
      match file_path c with
      | Some p =>
          if String.eqb p "" then pf_fn pf
          else
            let base := rstrip_slash (str_remove "_metadata" 0 (pf_fn pf)) in
            if String.eqb base "" then p
            else base +:+ "/" +:+ p
      | None => pf_fn pf
      end
  | [] => pf_fn pf
  end.

(** The frame as a value: every slot with the cells its array holds. *)
Definition freeze (h : list (list Z)) (fr : frame) : DataFrame :=
  MkFrame (fr_len fr)
    ((λ sl, Column (slot_name sl) (slot_dtype sl) (default [] (h !! slot_ref sl)))
       <$> fr_slots fr).

End Fastparquet.
Export Fastparquet.

(** ** Cell 3: [columns] and [read_row_group] *)

(** The module-level names [read_row_group] refers to. *)
Record globals : Type := Globals {
  pf : ParquetFile;
  gcs : GCSFileSystem;
  g_columns : list string
}.

Definition columns : list string :=
  ["tpep_pickup_datetime"; "passenger_count"; "pickup_longitude";
   "pickup_latitude"; "dropoff_longitude"; "dropoff_latitude";
   "payment_type"; "fare_amount"; "tip_amount"; "total_amount"].

(** The globals of the notebook: [columns] is the list of cell 3. *)
Definition notebook (p : ParquetFile) (g : GCSFileSystem) : globals :=
  Globals p g columns.

Definition read_row_group (g : globals) (rg : row_group) : L frame :=
  let fn := row_group_filename (pf g) rg in
  let categories := [] in
  let index := None in
  let cs := [] in
  let dt := dtypes (pf g) in
  let schema := schema (pf g) in
  '(df, views) ← _pre_allocate (num_rows rg) (g_columns g) categories index cs dt;
  _ ← read_row_group_file fn rg (g_columns g) categories schema cs
        (gcs_open (gcs g)) views;
  mret df.

(** One call of the loader from a fresh store: the table it returns, or
    its error, and the storage accesses it made. *)
Definition run_loader (g : globals) (rg : row_group) : res DataFrame * list event :=
  match read_row_group g rg (LState [] []) with
  | (Ok df, s) => (Ok (freeze (heap s) df), io_log s)
  | (Err e, s) => (Err e, io_log s)
  end.

Definition load (g : globals) (rg : row_group) : res DataFrame :=
  fst (run_loader g rg).

(** ** Python values and the callables the notebook submits *)

Module Python.

#[warnings="-register-all"] Inductive value : Type :=
| VNone
| VInt (z : Z)                  (* a Python int *)
| VInt64 (z : Z)                (* a numpy int64 scalar *)
| VRowGroup (rg : row_group)
| VTable (df : DataFrame)
| VList (l : list value).

(** A callable applied to its positional arguments. *)
Definition pyfun : Type := list value → res value.

Definition in_int64 (z : Z) : bool :=
  ((- 2 ^ 63 <=? z) && (z <? 2 ^ 63))%Z.

(** [a + b] on the numbers the notebook adds: Python ints are
    unbounded, numpy's [int64] wraps around, and a Python int meeting
    an [int64] is converted to it first. *)
Definition py_add (a b : value) : res value :=
  match a, b with
  | VInt x, VInt y => Ok (VInt (x + y))
  | VInt64 x, VInt64 y => Ok (VInt64 (wrap64 (x + y)))
  | VInt x, VInt64 y | VInt64 y, VInt x =>
      if in_int64 x then Ok (VInt64 (wrap64 (x + y)))
      else Err (PyExn "OverflowError")
  | _, _ => Err (PyExn "TypeError")
  end.

Fixpoint sum_from (acc : value) (l : list value) : res value :=
  match l with
  | [] => Ok acc
  | x :: l' => res_bind (py_add acc x) (λ acc', sum_from acc' l')
  end.

(** The builtin [sum(iterable)], which starts from the Python int 0. *)
Definition sum : pyfun := λ args,
  match args with
  | [VList l] => sum_from (VInt 0) l
  | _ => Err (PyExn "TypeError")
  end.

(** The builtin [len]: the number of rows of a frame, the number of
    items of a list. *)
Definition len : pyfun := λ args,
  match args with
  | [VTable df] => Ok (VInt (Z.of_nat (df_len df)))
  | [VList l] => Ok (VInt (Z.of_nat (length l)))
  | _ => Err (PyExn "TypeError")
  end.

(** Modelled from the spec: [Series.sum] of pandas is not part of the
    repository. An [int64] column sums with wrap-around to an [int64]
    scalar; pandas refuses to sum timestamps and categoricals; a float
    sum is outside the integer model. *)
Definition Series_sum (c : column) : res value :=
  match col_dtype c with
  | Int64 => Ok (VInt64 (wrap64 (Zsum (cells c))))
  | Float64 => Err Unmodelled
  | Datetime64 | Category => Err (PyExn "TypeError")
  end.

End Python.
Export Python.

(** ** The remote execution service *)

Module Distributed.

(** Modelled from the spec: [dask.distributed] is not part of the
    repository. Sections 4.2, 5 and 7 of the specification describe the
    service: [submit] records a task and returns at once with a future;
    an argument may be a future or a list of futures; a task runs on
    some worker once its dependencies have resolved; a resolved value
    stays on that worker; a failure is kept with the future and is
    raised by [result]. *)
Inductive arg : Type :=
| AVal (v : value)
| AFut (k : key)
| AFuts (ks : list key).

Record task : Type := Task {
  t_fn : pyfun;
  t_args : list arg
}.

(** The lifecycle of a future: pending, then resolved on a worker or
    failed; a failure names the worker and the task that raised it. *)
Inductive fstate : Type :=
| Pending
| Finished (v : value) (w : worker)
| Erred (e : error) (w : worker) (origin : key).

(** The service as the caller's session sees it: the futures issued so
    far, by key, and the executions that took place ([runs]: which
    task ran on which worker, latest last). *)
Record Client : Type := MkClient {
  entries : list (task * fstate);
  runs : list (key * worker)
}.

Definition connect : Client := MkClient [] [].

Definition C (A : Type) : Type := Client → res A * Client.

#[export] Instance C_ret : MRet C := λ A a c, (Ok a, c).
#[export] Instance C_bind : MBind C := λ A B k m c,
  match m c with
  | (Ok a, c') => k a c'
  | (Err e, c') => (Err e, c')
  end.

Definition state_of (c : Client) (k : key) : option fstate :=
  snd <$> entries c !! k.

Definition arg_keys (a : arg) : list key :=
  match a with
  | AVal _ => []
  | AFut k => [k]
  | AFuts ks => ks
  end.

Definition deps (args : list arg) : list key := List.concat (arg_keys <$> args).

(** What the dependencies of a task allow: run on these values, fail
    with the failure of a dependency, or wait. A failed dependency
    fails the task without waiting for the others. *)
Inductive resolved (A : Type) : Type :=
| Ready (a : A)
| Broken (e : error) (w : worker) (origin : key)
| Waiting.
Arguments Ready {A} a.
Arguments Broken {A} e w origin.
Arguments Waiting {A}.

Definition resolve_key (c : Client) (k : key) : resolved value :=
  match state_of c k with
  | Some (Finished v _) => Ready v
  | Some (Erred e w o) => Broken e w o
  | _ => Waiting
  end.

(** All ready, or the first failure in argument order, or waiting. *)
Fixpoint resolve_all {A} (l : list (resolved A)) : resolved (list A) :=
  match l with
  | [] => Ready []
  | r :: l' =>
      match r, resolve_all l' with
      | Broken e w o, _ => Broken e w o
      | _, Broken e w o => Broken e w o
      | Ready a, Ready l'' => Ready (a :: l'')
      | _, _ => Waiting
      end
  end.

Definition resolve_arg (c : Client) (a : arg) : resolved value :=
  match a with
  | AVal v => Ready v
  | AFut k => resolve_key c k
  | AFuts ks =>
      match resolve_all (resolve_key c <$> ks) with
      | Ready vs => Ready (VList vs)
      | Broken e w o => Broken e w o
      | Waiting => Waiting
      end
  end.

Definition resolve_args (c : Client) (args : list arg) : resolved (list value) :=
  resolve_all (resolve_arg c <$> args).

Definition set_state (k : key) (st : fstate) (c : Client) : Client :=
  match entries c !! k with
  | Some (t, _) => MkClient (<[k := (t, st)]> (entries c)) (runs c)
  | None => c
  end.

Definition record_run (k : key) (w : worker) (c : Client) : Client :=
  MkClient (entries c) (runs c ++ [(k, w)]).

(** One decision of the scheduler: give task [k] to worker [w]. Only a
    pending task whose dependencies are settled moves. *)
Definition run (c : Client) (d : key * worker) : Client :=
  match entries c !! d.1 with
  | Some (t, Pending) =>
      match resolve_args c (t_args t) with
      | Waiting => c
      | Broken e w o => set_state d.1 (Erred e w o) c
      | Ready vals =>
          match t_fn t vals with
          | Ok v => record_run d.1 d.2 (set_state d.1 (Finished v d.2) c)
          | Err e => record_run d.1 d.2 (set_state d.1 (Erred e d.2 d.1) c)
          end
      end
  | _ => c
  end.

(** What the cluster does over a stretch of time: any sequence of
    decisions, in any order and on any workers. *)
Definition progress (sched : list (key * worker)) (c : Client) : Client :=
  foldl run c sched.

(** The cluster working while the caller is busy elsewhere. *)
Definition meanwhile (sched : list (key * worker)) : C unit :=
  λ c, (Ok (), progress sched c).

(** How often task [k] has been executed. *)
Definition executions (c : Client) (k : key) : nat :=
  length (filter (λ d, d.1 = k) (runs c)).

End Distributed.
Export Distributed.

Module client.

(** Modelled from the spec: [Client.submit] of dask.distributed is not
    part of the repository. [submit(function, *args) -> Future]: the
    task is recorded as pending under a fresh key and the key is
    returned at once. The futures among the arguments must have been
    issued before; any other would make the task depend on itself or on
    a later task, and is refused with [CyclicDependency]. *)
Definition submit (fn : pyfun) (args : list arg) : C key := λ c,
  if forallb (λ k, k <? length (entries c)) (deps args) then
    (Ok (length (entries c)),
     MkClient (entries c ++ [(Task fn args, Pending)]) (runs c))
  else (Err CyclicDependency, c).

(** Modelled from the spec: [Client.map] of dask.distributed is not
    part of the repository. [map(function, iterable_of_args)] applies
    [submit] element-wise, in input order. *)
Fixpoint map (fn : pyfun) (xs : list arg) : C (list key) :=
  match xs with
  | [] => mret []
  | x :: xs' =>
      k ← submit fn [x];
      ks ← map fn xs';
      mret (k :: ks)
  end.

End client.

Module Future.

(** Modelled from the spec: [Future.result] of dask.distributed is not
    part of the repository. [result(future, timeout)] blocks while the
    cluster works ([sched] is what it does until the wait ends), then
    hands over the value of a resolved future, raises the failure of a
    failed one tagged with its worker and task, and gives up with
    [Timeout] on a future that is still pending, which stays
    submitted. *)
Definition result (fut : key) (sched : list (key * worker)) : C value := λ c,
  let c' := progress sched c in
  match state_of c' fut with
  | Some (Finished v _) => (Ok v, c')
  | Some (Erred e w o) => (Err (RemoteTaskFailure e w o), c')
  | Some Pending => (Err Timeout, c')
  | None => (Err (PyExn "KeyError"), c')
  end.

End Future.

(** ** The remote cells of the notebook *)

(** [read_row_group] as the callable handed to [client.submit]. It
    takes one positional argument; on anything that is no row group its
    first statement fails with [AttributeError]. *)
Definition read_row_group_fn (g : globals) : pyfun := λ args,
  match args with
  | [VRowGroup rg] => res_bind (load g rg) (λ df, Ok (VTable df))
  | [_] => Err (PyExn "AttributeError")
  | _ => Err (PyExn "TypeError")
  end.

(** [def f(df): return df.passenger_count.sum()]. It takes one
    positional argument; anything that is no frame has no
    [passenger_count]. *)
Definition f : pyfun := λ args,
  match args with
  | [VTable df] =>
      res_bind (getattr (df_columns df) "passenger_count") Series_sum
  | [_] => Err (PyExn "AttributeError")
  | _ => Err (PyExn "TypeError")
  end.

(** Modelled from the spec: the cell leaves [futures = ...] to the
    reader and the solution file is not among the sources. The list of
    futures is the one the cell's comment asks for and section 4.3
    describes, the loader submitted once per row group:
    [futures = client.map(read_row_group, pf.row_groups)]. *)
Definition futures_cell (g : globals) (rgs : list row_group) : C (list key) :=
  client.map (read_row_group_fn g) (AVal ∘ VRowGroup <$> rgs).

(** [counts = client.map(f, futures); total = client.submit(sum, counts);
    total.result()], with the cluster working between the statements. *)
Definition total_cell (futures : list key)
    (s1 s2 s3 : list (key * worker)) : C value :=
  counts ← client.map f (AFut <$> futures);
  _ ← meanwhile s1;
  total ← client.submit sum [AFuts counts];
  _ ← meanwhile s2;
  Future.result total s3.

(** The exercise from a fresh session: load every row group remotely,
    then total the passengers. *)
Definition total_passengers (g : globals) (rgs : list row_group)
    (s0 s1 s2 s3 : list (key * worker)) : res value :=
  fst ((futures ← futures_cell g rgs;
        _ ← meanwhile s0;
        total_cell futures s1 s2 s3) connect).

(** The same total computed locally: load every row group, concatenate
    the tables, sum the column. *)
Definition local_total (g : globals) (rgs : list row_group) : res value :=
  res_bind (res_mapM (load g) rgs) (λ tables,
    res_bind (concat tables) (λ df, f [VTable df])).

(** ** Auxiliary notions for the proofs *)

Definition shape (h : list (list Z)) : list nat := length <$> h.

Definition is_read (ev : event) : Prop :=
  match ev with
  | Read _ => True
  | Open _ => False
  end.

(** A computation that allocates nothing, opens no file (it may read
    from the opened one) and raises Python exceptions only. *)
Definition quiet {A} (m : L A) : Prop :=
  ∀ s, shape (heap (m s).2) = shape (heap s)
       ∧ (∃ evs, io_log (m s).2 = io_log s ++ evs ∧ Forall is_read evs)
       ∧ ∀ e, (m s).1 = Err e → ∃ n, e = PyExn n.

Fixpoint first_occurrences (seen : gset string) (cols : list (string * dtype))
    : list (string * dtype) :=
  match cols with
  | [] => []
  | c :: cols' =>
      if decide (c.1 ∈ seen) then first_occurrences seen cols'
      else c :: first_occurrences ({[c.1]} ∪ seen) cols'
  end.

Definition slot_layout (sl : slot) : string * dtype := (slot_name sl, slot_dtype sl).
Definition column_layout (c : column) : string * dtype := (col_name c, col_dtype c).

Definition typed_columns (g : globals) : list (string * dtype) :=
  (λ c, (c, get_type [] (dtypes (pf g)) c)) <$> g_columns g.

Definition layout (g : globals) : list (string * dtype) :=
  first_occurrences ∅ (typed_columns g).

Definition sized (h : list (list Z)) (size : nat) (r : nat) : Prop :=
  shape h !! r = Some size.



Definition tasks (c : Client) : list task := (entries c).*1.

(** [c'] keeps every settled future of [c] as it is. *)
Definition keeps (c c' : Client) : Prop :=
  ∀ k st, state_of c k = Some st → st ≠ Pending → state_of c' k = Some st.

Definition settle (k : key) (w : worker) (r : res value) : fstate :=
  match r with
  | Ok v => Finished v w
  | Err e => Erred e w k
  end.

(** The effect of one decision, case by case. *)
Inductive run_case (c : Client) (d : key * worker) : Client → Prop :=
| run_idle :
    (∀ t, entries c !! d.1 = Some (t, Pending) → resolve_args c (t_args t) = Waiting) →
    run_case c d c
| run_broken t e w o :
    entries c !! d.1 = Some (t, Pending) →
    resolve_args c (t_args t) = Broken e w o →
    run_case c d (set_state d.1 (Erred e w o) c)
| run_exec t vals :
    entries c !! d.1 = Some (t, Pending) →
    resolve_args c (t_args t) = Ready vals →
    run_case c d (record_run d.1 d.2 (set_state d.1 (settle d.1 d.2 (t_fn t vals)) c)).

(** What a settled future holds is accounted for by its task: a value is
    what the function returned on the resolved arguments; a failure is
    what the function raised on them, or the failure of a dependency. *)
Definition explains (c : Client) (k : key) (t : task) (st : fstate) : Prop :=
  match st with
  | Pending => True
  | Finished v w =>
      ∃ vals, resolve_args c (t_args t) = Ready vals ∧ t_fn t vals = Ok v
  | Erred e w o =>
      (o = k ∧ ∃ vals, resolve_args c (t_args t) = Ready vals ∧ t_fn t vals = Err e)
      ∨ (∃ d, d ∈ deps (t_args t) ∧ state_of c d = Some (Erred e w o))
  end.

Definition consistent (c : Client) : Prop :=
  ∀ k t st, entries c !! k = Some (t, st) → explains c k t st.

(** Every task depends on older tasks only. *)
Definition acyclic (c : Client) : Prop :=
  ∀ k t, tasks c !! k = Some t → Forall (λ d, d < k) (deps (t_args t)).

Definition sound (c : Client) : Prop := consistent c ∧ acyclic c.

Definition issued (c : Client) (args : list arg) : Prop :=
  Forall (λ d, d < length (entries c)) (deps args).

Definition submitted (c : Client) (t : task) : Client :=
  MkClient (entries c ++ [(t, Pending)]) (runs c).

Definition settled_below (c : Client) (j : nat) : Prop :=
  ∀ k, k < j → ∃ st, state_of c k = Some st ∧ st ≠ Pending.

(** The passenger total of a table, and of a row group once loaded. *)
Definition col_total (cols : list column) : Z :=
  match getattr cols "passenger_count" with
  | Ok c => Zsum (cells c)
  | Err _ => 0%Z
  end.

Definition countable (cols : list column) : Prop :=
  ∃ c, getattr cols "passenger_count" = Ok c ∧ col_dtype c = Int64.

Definition partial (g : globals) (rg : row_group) : Z :=
  match load g rg with
  | Ok t => col_total (df_columns t)
  | Err _ => 0%Z
  end.

Definition submitted_all (c : Client) (ts : list task) : Client :=
  MkClient (entries c ++ ((λ t, (t, Pending)) <$> ts)) (runs c).

(** The tasks of the exercise, by key: the loaders, the per-chunk sums,
    the combiner. *)
Definition loader_tasks (g : globals) (rgs : list row_group) : list task :=
  (λ rg, Task (read_row_group_fn g) [AVal (VRowGroup rg)]) <$> rgs.

Definition count_tasks (n : nat) : list task :=
  (λ i, Task f [AFut i]) <$> seq 0 n.

Definition exercise_tasks (g : globals) (rgs : list row_group) : list task :=
  loader_tasks g rgs ++ count_tasks (length rgs)
    ++ [Task sum [AFuts (seq (length rgs) (length rgs))]].

(** A small dataset: two row groups in one file. *)
Definition taxi_dtypes : gmap string dtype :=
  list_to_map
    [("tpep_pickup_datetime", Datetime64); ("passenger_count", Int64);
     ("pickup_longitude", Float64); ("pickup_latitude", Float64);
     ("dropoff_longitude", Float64); ("dropoff_latitude", Float64);
     ("payment_type", Category); ("fare_amount", Float64);
     ("tip_amount", Float64); ("total_amount", Float64)].

Definition rg_a : row_group :=
  RowGroup 3 [Chunk "passenger_count" 4 None; Chunk "fare_amount" 100 None;
              Chunk "VendorID" 7 None].
Definition rg_b : row_group :=
  RowGroup 2 [Chunk "passenger_count" 200 None].

Definition taxi_file : file :=
  list_to_map [(4, [[1; 2]; [5]]%Z); (100, [[7; 7; 7]]%Z); (7, [[9; 9; 9]]%Z);
               (200, [[3]; [4]]%Z)].

Definition taxi_pf : ParquetFile :=
  {| pf_fn := "anaconda-public-data/nyc-taxi/2015.parquet";
     dtypes := taxi_dtypes; schema := columns; row_groups := [rg_a; rg_b] |}.

Definition taxi_gcs : GCSFileSystem :=
  {[ "anaconda-public-data/nyc-taxi/2015.parquet" := taxi_file ]}.

Definition taxi : globals := notebook taxi_pf taxi_gcs.

Definition table_a : DataFrame :=
  Eval vm_compute in
    match load taxi rg_a with Ok df => df | Err _ => MkFrame 0 [] end.

(** The same file read as a dataset without tips: neither its schema nor
    its dtypes know [tip_amount], which [columns] still lists. *)
Definition tipless_pf : ParquetFile :=
  {| pf_fn := "anaconda-public-data/nyc-taxi/2015.parquet";
     dtypes := delete "tip_amount" taxi_dtypes;
     schema := filter (λ c, c ≠ "tip_amount") columns;
     row_groups := [rg_a; rg_b] |}.

Definition tipless : globals := notebook tipless_pf taxi_gcs.

(** The property of the loader the specification asks for: a requested
    column missing from the schema fails the call with [SchemaMismatch]
    and without any storage access. *)
Definition checks_schema_first (g : globals) (rg : row_group) : Prop :=
  (∃ name, name ∈ g_columns g ∧ name ∉ schema (pf g)) →
  run_loader g rg = (Err SchemaMismatch, []).

(** The row group stores the passenger counts [vals] in full: it has one
    chunk for [passenger_count], and the pages of that chunk in the row
    group's file hold [vals], as many values as the row group declares. *)
Definition stores_counts (g : globals) (rg : row_group) (vals : list Z) : Prop :=
  ∃ pre ch post fl pages,
    rg_columns rg = pre ++ ch :: post
    ∧ path_in_schema ch = "passenger_count"
    ∧ Forall (λ c, path_in_schema c ≠ "passenger_count") (pre ++ post)
    ∧ gcs g !! row_group_filename (pf g) rg = Some fl
    ∧ fl !! file_offset ch = Some pages
    ∧ length (List.concat pages) = num_rows rg
    ∧ vals = List.concat pages.

(** The total the exercise returns, on whatever schedule, is the one
    the local computation returns. *)
Definition remote_total_is_local (g : globals) (rgs : list row_group) : Prop :=
  ∀ s0 s1 s2 s3 v,
    total_passengers g rgs s0 s1 s2 s3 = Ok v → local_total g rgs = Ok v.

(** A callable that fails on the worker. *)
Definition failing : pyfun := λ _, Err (PyExn "ZeroDivisionError").

(** The scenario of the specification: three row groups of 1000, 1500
    and 2000 rides whose passenger counts sum to 1800, 2700 and 3600. *)
Definition rides (twos ones : nat) : list (list Z) :=
  [replicate twos 2%Z; replicate ones 1%Z].

Definition scenario_rgs : list row_group :=
  [RowGroup 1000 [Chunk "passenger_count" 4 (Some "part.0.parquet")];
   RowGroup 1500 [Chunk "passenger_count" 4 (Some "part.1.parquet")];
   RowGroup 2000 [Chunk "passenger_count" 4 (Some "part.2.parquet")]].

Definition scenario_pf : ParquetFile :=
  {| pf_fn := "nyc-taxi/_metadata";
     dtypes := taxi_dtypes; schema := columns; row_groups := scenario_rgs |}.

Definition scenario_gcs : GCSFileSystem :=
  list_to_map
    [("nyc-taxi/part.0.parquet", {[ 4 := rides 800 200 ]});
     ("nyc-taxi/part.1.parquet", {[ 4 := rides 1200 300 ]});
     ("nyc-taxi/part.2.parquet", {[ 4 := rides 1600 400 ]})].

Definition scenario : globals := notebook scenario_pf scenario_gcs.

(** ** Further notions: views, sessions and the chained cells *)

(** Distinct names have distinct arrays. *)
Definition separate (vs : views) : Prop :=
  ∀ n1 n2 r, vs !! n1 = Some r → vs !! n2 = Some r → n1 = n2.

(** Every column of the frame is the array its name has in the views. *)
Definition viewed (vs : views) (slots : list slot) : Prop :=
  Forall (λ sl, vs !! slot_name sl = Some (slot_ref sl)) slots.

(** Every column holds [n] cells. *)
Definition uniform (n : nat) (cols : list column) : Prop :=
  Forall (λ c, length (cells c) = n) cols.

(** No task has run twice, and every task that ran did so on resolved
    arguments and holds the outcome of that run. *)
Definition orderly (c : Client) : Prop :=
  NoDup (runs c).*1
  ∧ ∀ k w, (k, w) ∈ runs c →
      ∃ t vals, entries c !! k = Some (t, settle k w (t_fn t vals))
        ∧ resolve_args c (t_args t) = Ready vals.

(** The session of the exercise when the final wait begins. *)
Definition exercise_client (g : globals) (rgs : list row_group)
    (s0 s1 s2 : list (key * worker)) : Client :=
  progress s2
    (submitted
       (progress s1
          (submitted_all
             (progress s0 (submitted_all connect (loader_tasks g rgs)))
             (count_tasks (length rgs))))
       (Task sum [AFuts (seq (length rgs) (length rgs))])).

(** What [sum] returns over the partial sums of the row groups. *)
Definition total_value (g : globals) (rgs : list row_group) : value :=
  match rgs with
  | [] => VInt 0
  | _ => VInt64 (wrap64 (Zsum (partial g <$> rgs)))
  end.

(** A row group whose file is not in the bucket, so that loading it
    fails. *)
Definition rg_missing : row_group :=
  RowGroup 1 [Chunk "passenger_count" 4 (Some "part.9.parquet")].

(** A result of the caller's own, taken into the session. *)
Definition lift {A} (r : res A) : C A := λ c, (r, c).

(** [pf.row_groups[0]]: [IndexError] on a dataset without row groups. *)
Definition first_row_group (p : ParquetFile) : res row_group :=
  match row_groups p !! 0 with
  | Some rg => Ok rg
  | None => Err (PyExn "IndexError")
  end.

(** [future = client.submit(read_row_group, pf.row_groups[0]);
    len_future = client.submit(len, future); len_future.result();
    local_df = future.result()], with the cluster working between the
    statements. The cell gives the length and the table. *)
Definition chain_cells (g : globals) (s1 s2 s3 s4 : list (key * worker))
    : C (value * value) :=
  rg ← lift (first_row_group (pf g));
  future ← client.submit (read_row_group_fn g) [AVal (VRowGroup rg)];
  _ ← meanwhile s1;
  len_future ← client.submit len [AFut future];
  _ ← meanwhile s2;
  n ← Future.result len_future s3;
  local_df ← Future.result future s4;
  mret (n, local_df).

(** The session of these cells when the first wait begins. *)
Definition chain_client (g : globals) (rg : row_group)
    (s1 s2 : list (key * worker)) : Client :=
  progress s2
    (submitted
       (progress s1
          (submitted connect (Task (read_row_group_fn g) [AVal (VRowGroup rg)])))
       (Task len [AFut 0])).

(** ** The weighted mean *)





(** Modelled from the spec: [Series.mean] of pandas is not part of the
    repository. The mean of an [int64] column is the sum of its values,
    taken in floating point and so without wrap-around, over their
    number; here the exact rational number. The mean of no values is
    [nan], which is outside the model. *)
Definition Series_mean (c : column) : res Q :=
  match col_dtype c with
  | Int64 =>
      match cells c with
      | [] => Err Unmodelled
      | _ => Ok (inject_Z (Zsum (cells c)) / inject_Z (Z.of_nat (length (cells c))))%Q
      end
  | Float64 => Err Unmodelled
  | Datetime64 | Category => Err (PyExn "TypeError")
  end.

(** The true global mean: the tables concatenated locally, then the
    mean of the column. *)
Definition global_mean (tables : list DataFrame) : res Q :=
  res_bind (Frame.concat tables) (λ df,
    res_bind (getattr (df_columns df) "passenger_count") Series_mean).

(** The naive mean of the per-chunk means, each chunk weighing the
    same. *)
Definition mean_of_means (tables : list DataFrame) : res Q :=
  res_bind (res_mapM (λ t, res_bind (getattr (df_columns t) "passenger_count")
                             Series_mean) tables) (λ means,
    match means with
    | [] => Err (PyExn "ZeroDivisionError")
    | _ => Ok (foldr Qplus (inject_Z 0) means / inject_Z (Z.of_nat (length means)))%Q
    end).

(** The passenger counts of a table. *)
Definition col_cells (cols : list column) : list Z :=
  match getattr cols "passenger_count" with
  | Ok c => cells c
  | Err _ => []
  end.


(** Two tables of passenger counts alone, of one and of three rides. *)
Definition one_ride : DataFrame :=
  MkFrame 1 [Column "passenger_count" Int64 [6%Z]].

Definition three_rides : DataFrame :=
  MkFrame 3 [Column "passenger_count" Int64 [1; 1; 2]%Z].

(** ** Proofs *)

(** ** The loader: shape of the store *)

Section Loader.

Lemma no_events (l : list event) : ∃ evs, l = l ++ evs ∧ Forall is_read evs.
Proof. exists []. by rewrite app_nil_r. Qed.

Lemma quiet_ret {A} (a : A) : quiet (mret a).
Proof.
  intros s. cbn. split_and!; [done | apply no_events | intros e H; discriminate].
Qed.

Lemma quiet_raise {A} n : quiet (raise (A:=A) (PyExn n)).
Proof.
  intros s. cbn. split_and!; [done | apply no_events | intros e [= <-]; eauto].
Qed.

Lemma quiet_bind {A B} (m : L A) (k : A → L B) :
  quiet m → (∀ a, quiet (k a)) → quiet (m ≫= k).
Proof.
  intros Hm Hk s. unfold mbind, L_bind.
  destruct (Hm s) as (Hs & (evs & Hl & Hr) & He).
  destruct (m s) as [[a|e] s1]; cbn in *.
  - destruct (Hk a s1) as (Hs' & (evs' & Hl' & Hr') & He').
    split_and!; [congruence | | exact He'].
    exists (evs ++ evs'). split; [|by apply Forall_app].
    by rewrite Hl', Hl, app_assoc.
  - split_and!; [done | by exists evs |].
    intros e' [= <-]. by apply He.
Qed.

Lemma quiet_write_page r num page : quiet (write_page r num page).
Proof.
  intros s. unfold write_page.
  destruct (heap s !! r) as [a|] eqn:Ha; cbn.
  - case_decide as Hfit; cbn.
    + split_and!; [| apply no_events | intros e H; discriminate].
      unfold shape. rewrite list_fmap_insert. apply list_insert_id.
      rewrite list_lookup_fmap, Ha. cbn. f_equal.
      rewrite !length_app, length_take, length_drop. lia.
    + case_decide as Hone; cbn.
      * split_and!; [done | apply no_events | intros e He; discriminate].
      * split_and!; [done | apply no_events | intros e [= <-]; eauto].
  - split_and!; [done | apply no_events | intros e [= <-]; eauto].
Qed.

Lemma quiet_write_pages r pages : ∀ num, quiet (write_pages r num pages).
Proof.
  induction pages as [|p pages IH]; intros num; cbn.
  - apply quiet_ret.
  - apply quiet_bind; [apply quiet_write_page | intros a; apply IH].
Qed.

Lemma quiet_read_at (f : file) offset : quiet (read_at f offset).
Proof.
  intros s. unfold read_at.
  assert (Hev : ∃ evs, io_log s ++ [Read offset] = io_log s ++ evs ∧ Forall is_read evs).
  { exists [Read offset]. split; [done|]. by repeat constructor. }
  destruct (f !! offset); cbn; split_and!; try done.
  intros e [= <-]. eauto.
Qed.

Lemma quiet_read_col c f r : quiet (read_col c f r).
Proof.
  unfold read_col. apply quiet_bind; [apply quiet_read_at|].
  intros pages. apply quiet_write_pages.
Qed.

Lemma quiet_read_chunks chunks cols cats f vs :
  quiet (read_chunks chunks cols cats f vs).
Proof.
  induction chunks as [|c chunks IH]; cbn.
  - apply quiet_ret.
  - destruct (negb _ || _); [exact IH|].
    destruct (vs !! path_in_schema c).
    + apply quiet_bind; [apply quiet_read_col | intros _; exact IH].
    + apply quiet_raise.
Qed.

Lemma sized_app h a size r : sized h size r → sized (h ++ a) size r.
Proof.
  unfold sized, shape. intros H. rewrite fmap_app. by apply lookup_app_l_Some.
Qed.

Lemma empty_spec cols size : ∀ done vs s,
  Forall (λ sl, sized (heap s) size (slot_ref sl)) done →
  map_Forall (λ _ r, sized (heap s) size r) vs →
  ∃ slots vs' h',
    empty cols size done vs s = (Ok (slots, vs'), LState h' (io_log s))
    ∧ Forall (λ sl, sized h' size (slot_ref sl)) slots
    ∧ map_Forall (λ _ r, sized h' size r) vs'
    ∧ slot_layout <$> slots = (slot_layout <$> done) ++ first_occurrences (dom vs) cols
    ∧ (∀ n, n ∈ cols.*1 ∨ n ∈ dom vs → n ∈ dom vs').
Proof.
  induction cols as [|[name t] cols IH]; intros done vs s Hd Hv; cbn.
  - exists done, vs, (heap s). destruct s; cbn in *.
    repeat split; auto. + by rewrite app_nil_r. + intros n [H|H]; [set_solver | done].
  - destruct (vs !! name) as [r|] eqn:Hn.
    + destruct (IH done vs s Hd Hv) as (slots & vs' & h' & -> & H1 & H2 & H3 & H4).
      exists slots, vs', h'. repeat split; auto.
      * rewrite H3. rewrite decide_True; [done|]. apply elem_of_dom; eauto.
      * intros n [H|H]; apply H4; [|by right].
        apply elem_of_cons in H as [->|H]; [right; apply elem_of_dom; eauto | by left].
    + unfold mbind, L_bind, np_empty. cbn.
      set (s1 := LState (heap s ++ [replicate size 0%Z]) (io_log s)).
      assert (Hnew : sized (heap s1) size (length (heap s))).
      { unfold sized, shape, s1. cbn. rewrite fmap_app. cbn.
        rewrite lookup_app_r; rewrite length_fmap; [|lia].
        rewrite Nat.sub_diag. cbn. by rewrite length_replicate. }
      destruct (IH (done ++ [Slot name t (length (heap s))])
                   (<[name := length (heap s)]> vs) s1)
        as (slots & vs' & h' & Heq & H1 & H2 & H3 & H4).
      { apply Forall_app. split.
        - eapply Forall_impl; [exact Hd|]. intros sl Hsl. by apply sized_app.
        - by constructor. }
      { apply map_Forall_insert_2; [done|].
        eapply map_Forall_impl; [exact Hv|]. intros k r Hr. by apply sized_app. }
      exists slots, vs', h'. cbn in Heq. rewrite Heq. repeat split; auto.
      * rewrite H3. rewrite fmap_app, <- app_assoc. cbn.
        rewrite decide_False; [|by apply not_elem_of_dom].
        by rewrite dom_insert_L.
      * intros n [H|H]; apply H4.
        -- apply elem_of_cons in H as [->|H]; [right; set_solver | by left].
        -- right. set_solver.
Qed.

Lemma filter_all {A} (P : A → Prop) `{∀ x, Decision (P x)} (l : list A) :
  (∀ x, P x) → filter P l = l.
Proof.
  intros HP. induction l as [|x l IH]; [done|].
  rewrite filter_cons_True by done. by f_equal.
Qed.

Lemma pre_allocate_spec size cols dt s :
  ∃ slots vs h',
    _pre_allocate size cols [] None [] dt s = (Ok (Frame_ size slots, vs), LState h' (io_log s))
    ∧ Forall (λ sl, sized h' size (slot_ref sl)) slots
    ∧ map_Forall (λ _ r, sized h' size r) vs
    ∧ slot_layout <$> slots = first_occurrences ∅ ((λ c, (c, get_type [] dt c)) <$> cols)
    ∧ (∀ n, n ∈ cols → n ∈ dom vs).
Proof.
  unfold _pre_allocate.
  rewrite filter_all by done. cbn [fmap list_fmap]. rewrite app_nil_r.
  destruct (empty_spec ((λ c, (c, get_type [] dt c)) <$> cols) size [] ∅ s)
    as (slots & vs & h' & Heq & H1 & H2 & H3 & H4).
  { constructor. } { apply map_Forall_empty. }
  exists slots, vs, h'. unfold mbind, L_bind. rewrite Heq. cbn.
  split_and!; auto.
  intros n Hn. apply H4. left. rewrite <- list_fmap_compose.
    change (n ∈ id <$> cols). by rewrite list_fmap_id.
Qed.

Lemma sized_length h size r : sized h size r → length (default [] (h !! r)) = size.
Proof.
  unfold sized, shape. rewrite list_lookup_fmap.
  destruct (h !! r); cbn; congruence.
Qed.

Lemma freeze_spec h size slots :
  Forall (λ sl, sized h size (slot_ref sl)) slots →
  df_len (freeze h (Frame_ size slots)) = size
  ∧ column_layout <$> df_columns (freeze h (Frame_ size slots)) = slot_layout <$> slots
  ∧ Forall (λ c, length (cells c) = size) (df_columns (freeze h (Frame_ size slots))).
Proof.
  intros Hs. unfold freeze. cbn. split_and!; [done | |].
  - by rewrite <- list_fmap_compose.
  - apply Forall_fmap. eapply Forall_impl; [exact Hs|].
    intros sl Hsl. cbn. by apply sized_length.
Qed.

Lemma read_row_group_unfold g rg :
  let fn := row_group_filename (pf g) rg in
  ∃ slots vs h0,
    Forall (λ sl, sized h0 (num_rows rg) (slot_ref sl)) slots
    ∧ map_Forall (λ _ r, sized h0 (num_rows rg) r) vs
    ∧ slot_layout <$> slots = layout g
    ∧ (∀ n, n ∈ g_columns g → n ∈ dom vs)
    ∧ read_row_group g rg (LState [] []) =
        match gcs g !! fn with
        | Some fl =>
            let rs := read_chunks (rg_columns rg) (g_columns g) [] fl vs
                        (LState h0 [Open fn]) in
            (match rs.1 with
             | Ok _ => Ok (Frame_ (num_rows rg) slots)
             | Err e => Err e
             end, rs.2)
        | None => (Err SourceUnavailable, LState h0 [Open fn])
        end.
Proof.
  intros fn.
  destruct (pre_allocate_spec (num_rows rg) (g_columns g) (dtypes (pf g)) (LState [] []))
    as (slots & vs & h0 & Heq & Hsl & Hvs & Hlay & Hdom).
  exists slots, vs, h0. split_and!; try done.
  unfold read_row_group, read_row_group_file, mbind, L_bind. rewrite Heq.
  unfold gcs_open. cbn [heap io_log app]. fold fn.
  destruct (gcs g !! fn) as [fl|]; [|done].
  by destruct (read_chunks _ _ _ _ _ _) as [[[]|e] s1].
Qed.

Lemma run_loader_spec g rg :
  (∃ reads, (run_loader g rg).2 = Open (row_group_filename (pf g) rg) :: reads
      ∧ Forall is_read reads)
  ∧ (∀ e, (run_loader g rg).1 = Err e →
       (e = SourceUnavailable ∧ gcs g !! row_group_filename (pf g) rg = None)
       ∨ ∃ n, e = PyExn n)
  ∧ (∀ df, (run_loader g rg).1 = Ok df →
       df_len df = num_rows rg
       ∧ column_layout <$> df_columns df = layout g
       ∧ Forall (λ c, length (cells c) = num_rows rg) (df_columns df)).
Proof.
  destruct (read_row_group_unfold g rg) as (slots & vs & h0 & Hsl & Hvs & Hlay & Hdom & Heq).
  unfold run_loader. rewrite Heq. clear Heq.
  destruct (gcs g !! row_group_filename (pf g) rg) as [fl|] eqn:Hfile.
  - pose proof (quiet_read_chunks (rg_columns rg) (g_columns g) [] fl vs
                  (LState h0 [Open (row_group_filename (pf g) rg)]))
      as (Hsh & (reads & Hlog & Hreads) & Herr).
    destruct (read_chunks _ _ _ _ _ _) as [[[]|e] s1]; cbn in *.
    + split_and!; [by exists reads | intros e H; discriminate |].
      intros df [= <-].
      assert (Hsl' : Forall (λ sl, sized (heap s1) (num_rows rg) (slot_ref sl)) slots).
      { eapply Forall_impl; [exact Hsl|]. intros sl. unfold sized. by rewrite Hsh. }
      destruct (freeze_spec _ _ _ Hsl') as (F1 & F2 & F3).
      split_and!; [done | by rewrite F2 | done].
    + split_and!; [by exists reads | | intros df H; discriminate].
      intros e' [= <-]. right. by apply Herr.
  - cbn. split_and!; [by exists [] | | intros df H; discriminate].
    intros e [= <-]. by left.
Qed.

Lemma read_col_unfold c (fl : file) r s :
  read_col c fl r s =
    let s' := LState (heap s) (io_log s ++ [Read (file_offset c)]) in
    match fl !! file_offset c with
    | Some pages => write_pages r 0 pages s'
    | None => (Err (PyExn "ParquetException"), s')
    end.
Proof. unfold read_col, read_at, mbind, L_bind. by destruct (fl !! _). Qed.

Lemma sized_lookup h size r : sized h size r → ∃ a, h !! r = Some a ∧ length a = size.
Proof.
  unfold sized, shape. rewrite list_lookup_fmap.
  destruct (h !! r) as [a|]; [|done]. intros [= <-]. eauto.
Qed.




End Loader.

Section Scheduler.

Lemma state_of_set_state k st c j :
  state_of (set_state k st c) j =
    if decide (k = j) then (λ _, st) <$> state_of c j else state_of c j.
Proof.
  unfold set_state, state_of.
  destruct (entries c !! k) as [[t st0]|] eqn:Hk; cbn.
  - case_decide as Hj.
    + subst j. rewrite Hk. rewrite list_lookup_insert_eq; [done|].
      by eapply lookup_lt_Some.
    + by rewrite list_lookup_insert_ne.
  - case_decide as Hj; [|done]. subst j. by rewrite Hk.
Qed.

Lemma tasks_set_state k st c : tasks (set_state k st c) = tasks c.
Proof.
  unfold set_state, tasks.
  destruct (entries c !! k) as [[t st0]|] eqn:Hk; cbn; [|done].
  rewrite list_fmap_insert. cbn. apply list_insert_id.
  by rewrite list_lookup_fmap, Hk.
Qed.

Lemma runs_set_state k st c : runs (set_state k st c) = runs c.
Proof. unfold set_state. by destruct (entries c !! k) as [[]|]. Qed.

Lemma run_cases c d : run_case c d (run c d).
Proof.
  unfold run.
  destruct (entries c !! d.1) as [[t []]|] eqn:Hk;
    try (apply run_idle; intros t' H; congruence).
  destruct (resolve_args c (t_args t)) as [vals|e w o|] eqn:Hr.
  - replace (match t_fn t vals with
             | Ok v => record_run d.1 d.2 (set_state d.1 (Finished v d.2) c)
             | Err e => record_run d.1 d.2 (set_state d.1 (Erred e d.2 d.1) c)
             end)
      with (record_run d.1 d.2 (set_state d.1 (settle d.1 d.2 (t_fn t vals)) c))
      by (by destruct (t_fn t vals)).
    by eapply run_exec.
  - by eapply run_broken.
  - apply run_idle. intros t' H. congruence.
Qed.

Lemma state_of_Some c k st :
  state_of c k = Some st ↔ ∃ t, entries c !! k = Some (t, st).
Proof.
  unfold state_of. destruct (entries c !! k) as [[t st']|]; cbn; split.
  - intros [= ->]. eauto.
  - intros [t' [= _ ->]]. done.
  - done.
  - intros [t' H]. done.
Qed.

Lemma tasks_run c d : tasks (run c d) = tasks c.
Proof.
  destruct (run_cases c d); [done | apply tasks_set_state |].
  unfold record_run, tasks. cbn. apply tasks_set_state.
Qed.

Lemma progress_cons d s c : progress (d :: s) c = progress s (run c d).
Proof. done. Qed.

Lemma progress_app s1 s2 c : progress (s1 ++ s2) c = progress s2 (progress s1 c).
Proof. unfold progress. apply foldl_app. Qed.

Lemma tasks_progress s : ∀ c, tasks (progress s c) = tasks c.
Proof.
  induction s as [|d s IH]; intros c; [done|].
  rewrite progress_cons, IH. apply tasks_run.
Qed.

Lemma length_tasks c : length (tasks c) = length (entries c).
Proof. unfold tasks. by rewrite length_fmap. Qed.

Lemma length_entries_progress s c : length (entries (progress s c)) = length (entries c).
Proof. by rewrite <- !length_tasks, tasks_progress. Qed.

Lemma task_lookup c k t : tasks c !! k = Some t ↔ ∃ st, entries c !! k = Some (t, st).
Proof.
  unfold tasks. rewrite list_lookup_fmap.
  destruct (entries c !! k) as [[t' st']|]; cbn; split.
  - intros [= ->]. eauto.
  - intros [st [= -> _]]. done.
  - done.
  - intros [st H]. done.
Qed.

Lemma keeps_refl c : keeps c c.
Proof. by intros k st H _. Qed.

Lemma keeps_trans c1 c2 c3 : keeps c1 c2 → keeps c2 c3 → keeps c1 c3.
Proof. intros H1 H2 k st Hk Hst. eauto. Qed.

Lemma keeps_set_state c k st :
  state_of c k = Some Pending → keeps c (set_state k st c).
Proof.
  intros Hp j st' Hj Hst'. rewrite state_of_set_state.
  case_decide as E; [|done]. subst j. congruence.
Qed.

Lemma keeps_run c d : keeps c (run c d).
Proof.
  destruct (run_cases c d) as [|t e w o Ht _|t vals Ht _].
  - apply keeps_refl.
  - apply keeps_set_state. apply state_of_Some. eauto.
  - intros j st Hj Hst. unfold record_run, state_of. cbn.
    apply (keeps_set_state c d.1); [apply state_of_Some; eauto | done | done].
Qed.

Lemma keeps_progress s : ∀ c, keeps c (progress s c).
Proof.
  induction s as [|d s IH]; intros c; [apply keeps_refl|].
  rewrite progress_cons. eapply keeps_trans; [apply keeps_run | apply IH].
Qed.

Lemma resolve_key_Ready c k v :
  resolve_key c k = Ready v ↔ ∃ w, state_of c k = Some (Finished v w).
Proof.
  unfold resolve_key. destruct (state_of c k) as [[]|]; split;
    try done; try (intros [w' H]; congruence).
  - intros [= ->]. eauto.
Qed.

Lemma resolve_key_Broken c k e w o :
  resolve_key c k = Broken e w o ↔ state_of c k = Some (Erred e w o).
Proof.
  unfold resolve_key. destruct (state_of c k) as [[]|]; split; try done; congruence.
Qed.

Lemma resolve_all_Ready {A} (l : list (resolved A)) vs :
  resolve_all l = Ready vs ↔ l = Ready <$> vs.
Proof.
  revert vs. induction l as [|r l IH]; intros vs; cbn.
  - split; [intros [= <-]; done | by destruct vs].
  - split.
    + destruct r as [a|e w o|]; destruct (resolve_all l) as [l'|e' w' o'|] eqn:Hl;
        try done.
      intros [= <-]. cbn. f_equal. by apply IH.
    + destruct vs as [|v vs]; [done|]. cbn. intros [= -> Hl].
      by rewrite (proj2 (IH vs) Hl).
Qed.

Lemma resolve_all_Broken {A} (l : list (resolved A)) e w o :
  resolve_all l = Broken e w o → Broken e w o ∈ l.
Proof.
  induction l as [|r l IH]; cbn; [done|].
  destruct r as [a|e' w' o'|]; destruct (resolve_all l) as [l'|e'' w'' o''|];
    try done; intros [= -> -> ->]; try (by left); right; by apply IH.
Qed.

Lemma keeps_resolve_key c c' k v :
  keeps c c' → resolve_key c k = Ready v → resolve_key c' k = Ready v.
Proof.
  intros Hk. rewrite !resolve_key_Ready. intros [w H]. exists w. by apply Hk.
Qed.

Lemma keeps_resolve_arg c c' a v :
  keeps c c' → resolve_arg c a = Ready v → resolve_arg c' a = Ready v.
Proof.
  intros Hk. destruct a as [x|k|ks]; cbn; [done | by apply keeps_resolve_key |].
  destruct (resolve_all (resolve_key c <$> ks)) as [vs| |] eqn:Hr; try done.
  intros [= <-]. apply resolve_all_Ready in Hr.
  assert (resolve_key c' <$> ks = Ready <$> vs) as ->.
  { revert vs Hr. induction ks as [|k ks IH]; intros [|v vs]; cbn; try done.
    intros [= H1 H2]. f_equal; [by eapply keeps_resolve_key | by apply IH]. }
  by rewrite (proj2 (resolve_all_Ready _ vs) eq_refl).
Qed.

Lemma keeps_resolve_args c c' args vals :
  keeps c c' → resolve_args c args = Ready vals → resolve_args c' args = Ready vals.
Proof.
  intros Hk. unfold resolve_args. rewrite !resolve_all_Ready.
  revert vals. induction args as [|a args IH]; intros [|v vals]; cbn; try done.
  intros [= H1 H2]. f_equal; [by eapply keeps_resolve_arg | by apply IH].
Qed.

End Scheduler.

Section Soundness.

Lemma explains_keeps c c' k t st :
  keeps c c' → explains c k t st → explains c' k t st.
Proof.
  intros Hk. destruct st as [|v w|e w o]; cbn; [done | |].
  - intros (vals & Hr & Hf). exists vals. split; [|done].
    by eapply keeps_resolve_args.
  - intros [(-> & vals & Hr & Hf)|(d & Hd & Hst)].
    + left. split; [done|]. exists vals. split; [|done].
      by eapply keeps_resolve_args.
    + right. exists d. split; [done|]. by apply Hk.
Qed.

Lemma elem_of_deps d args :
  d ∈ deps args ↔ ∃ a, a ∈ args ∧ d ∈ arg_keys a.
Proof.
  unfold deps. rewrite list_elem_of_In, in_concat. split.
  - intros (l & Hl & Hd). rewrite <- list_elem_of_In in Hl. rewrite <- list_elem_of_In in Hd.
    apply list_elem_of_fmap in Hl as (a & -> & Ha). by exists a.
  - intros (a & Ha & Hd). exists (arg_keys a). rewrite <- !list_elem_of_In.
    split; [|done]. apply list_elem_of_fmap. eauto.
Qed.

Lemma resolve_args_Broken c args e w o :
  resolve_args c args = Broken e w o →
  ∃ d, d ∈ deps args ∧ state_of c d = Some (Erred e w o).
Proof.
  unfold resolve_args. intros H. apply resolve_all_Broken in H.
  apply list_elem_of_fmap in H as (a & Ha & Hin).
  destruct a as [x|k|ks]; cbn in Ha; [done | |].
  - exists k. split.
    + apply elem_of_deps. exists (AFut k). split; [done | set_solver].
    + by apply resolve_key_Broken.
  - destruct (resolve_all (resolve_key c <$> ks)) as [|e' w' o'|] eqn:Hr; try done.
    injection Ha as -> -> ->. apply resolve_all_Broken in Hr.
    apply list_elem_of_fmap in Hr as (k & Hk & Hkin).
    exists k. split.
    + apply elem_of_deps. by exists (AFuts ks).
    + by apply resolve_key_Broken.
Qed.

Lemma entries_run_other c d k :
  k ≠ d.1 → entries (run c d) !! k = entries c !! k.
Proof.
  intros Hne. destruct (run_cases c d) as [|t e w o Ht _|t vals Ht _];
    [done | |]; unfold record_run, set_state; rewrite Ht; cbn;
    by rewrite list_lookup_insert_ne.
Qed.

Lemma consistent_run c d : consistent c → consistent (run c d).
Proof.
  intros Hc k t st Hk.
  pose proof (keeps_run c d) as Hkeep.
  destruct (decide (k = d.1)) as [->|Hne].
  - destruct (run_cases c d) as [Hidle|t0 e w o Ht Hr|t0 vals Ht Hr].
    + eapply explains_keeps; [exact Hkeep|]. by apply Hc.
    + assert (t = t0 ∧ st = Erred e w o) as [-> ->].
      { unfold set_state in Hk. rewrite Ht in Hk. cbn in Hk.
        rewrite list_lookup_insert_eq in Hk by (by eapply lookup_lt_Some).
        by injection Hk. }
      right. apply resolve_args_Broken in Hr as (d' & Hd' & Hst).
      exists d'. split; [done|]. apply Hkeep; [done|done].
    + assert (t = t0 ∧ st = settle d.1 d.2 (t_fn t0 vals)) as [-> ->].
      { unfold record_run, set_state in Hk. rewrite Ht in Hk. cbn in Hk.
        rewrite list_lookup_insert_eq in Hk by (by eapply lookup_lt_Some).
        by injection Hk. }
      apply (keeps_resolve_args _ _ _ _ Hkeep) in Hr.
      destruct (t_fn t0 vals) as [v|e] eqn:Hf; cbn.
      * eauto.
      * left. eauto.
  - rewrite entries_run_other in Hk by done.
    eapply explains_keeps; [exact Hkeep|]. by apply Hc.
Qed.

Lemma acyclic_run c d : acyclic c → acyclic (run c d).
Proof. unfold acyclic. by rewrite tasks_run. Qed.

Lemma sound_run c d : sound c → sound (run c d).
Proof. intros [H1 H2]. split; [by apply consistent_run | by apply acyclic_run]. Qed.

Lemma sound_progress s : ∀ c, sound c → sound (progress s c).
Proof.
  induction s as [|d s IH]; intros c Hc; [done|].
  rewrite progress_cons. by apply IH, sound_run.
Qed.

Lemma sound_connect : sound connect.
Proof. split; intros k t; cbn; by rewrite ?lookup_nil. Qed.

Lemma state_of_submitted c t k :
  state_of (submitted c t) k =
    if decide (k = length (entries c)) then Some Pending else state_of c k.
Proof.
  unfold state_of, submitted. cbn. case_decide as Hk.
  - subst k. by rewrite lookup_app_r, Nat.sub_diag.
  - destruct (decide (k < length (entries c))).
    + by rewrite lookup_app_l.
    + rewrite !lookup_ge_None_2; [done | lia |]. rewrite length_app. cbn. lia.
Qed.

Lemma keeps_submitted c t : keeps c (submitted c t).
Proof.
  intros k st Hk Hst. rewrite state_of_submitted. case_decide as E; [|done].
  subst k. apply state_of_Some in Hk as [t' Hk]. apply lookup_lt_Some in Hk. lia.
Qed.

Lemma sound_submitted c t :
  sound c → issued c (t_args t) → sound (submitted c t).
Proof.
  intros [Hc Ha] Hiss. split.
  - intros k t' st Hk. unfold submitted in Hk. cbn in Hk.
    apply lookup_app_Some in Hk as [Hk|[Hlen Hk]].
    + eapply explains_keeps; [apply keeps_submitted|]. by apply Hc.
    + apply list_lookup_singleton_Some in Hk as [_ [= <- <-]]. done.
  - intros k t' Hk. unfold tasks, submitted in Hk. cbn in Hk.
    rewrite fmap_app in Hk. apply lookup_app_Some in Hk as [Hk|[Hlen Hk]].
    + by apply Ha.
    + cbn in Hk. apply list_lookup_singleton_Some in Hk as [Hk0 <-].
      rewrite length_fmap in *.
      eapply Forall_impl; [exact Hiss|]. cbn. intros d. lia.
Qed.

Lemma submit_spec fn args c :
  issued c args →
  client.submit fn args c = (Ok (length (entries c)), submitted c (Task fn args)).
Proof.
  intros Hiss. unfold client.submit.
  assert (forallb (λ k, k <? length (entries c)) (deps args) = true) as ->; [|done].
  apply Is_true_true, forallb_True.
  eapply Forall_impl; [exact Hiss|]. cbn. intros d Hd.
  apply Is_true_true. by apply Nat.ltb_lt.
Qed.

Lemma map_spec fn xs : ∀ c,
  Forall (λ x, issued c [x]) xs →
  client.map fn xs c =
    (Ok (seq (length (entries c)) (length xs)),
     MkClient (entries c ++ ((λ x, (Task fn [x], Pending)) <$> xs)) (runs c)).
Proof.
  induction xs as [|x xs IH]; intros c Hxs.
  - cbn. rewrite app_nil_r. by destruct c.
  - apply Forall_cons in Hxs as [Hx Hxs].
    cbn [client.map]. unfold mbind at 1. unfold C_bind at 1.
    rewrite submit_spec by done.
    unfold mbind at 1. unfold C_bind at 1. rewrite IH.
    + cbn. rewrite length_app. cbn. rewrite Nat.add_1_r.
      by rewrite <- app_assoc.
    + eapply Forall_impl; [exact Hxs|]. intros a. unfold issued, submitted. cbn.
      rewrite length_app. cbn. intros HF.
      eapply Forall_impl; [exact HF|]. cbn. intros d. lia.
Qed.

End Soundness.

Section Progress.

Lemma settle_not_pending k w r : settle k w r ≠ Pending.
Proof. by destruct r. Qed.

Lemma state_of_run_settled c d k :
  state_of c k ≠ Some Pending → state_of (run c d) k = state_of c k.
Proof.
  intros Hk. destruct (state_of c k) as [st|] eqn:Hst.
  - apply keeps_run; congruence.
  - unfold state_of in *. apply fmap_None in Hst. apply fmap_None.
    apply lookup_ge_None. apply lookup_ge_None in Hst.
    by rewrite <- length_tasks, tasks_run, length_tasks.
Qed.

Lemma executions_run_settled c d k :
  state_of c k ≠ Some Pending → executions (run c d) k = executions c k.
Proof.
  intros Hk. destruct (run_cases c d) as [|t e w o Ht _|t vals Ht _]; [done | |].
  - unfold executions. by rewrite runs_set_state.
  - unfold executions, record_run. cbn. rewrite runs_set_state, filter_app.
    rewrite filter_cons_False, filter_nil, app_nil_r; [done|].
    cbn. intros E. apply Hk. rewrite <- E. apply state_of_Some. eauto.
Qed.

Lemma settled_progress k s : ∀ c,
  state_of c k ≠ Some Pending →
  state_of (progress s c) k = state_of c k
  ∧ executions (progress s c) k = executions c k.
Proof.
  induction s as [|d s IH]; intros c Hk; [done|].
  rewrite progress_cons.
  pose proof (state_of_run_settled c d k Hk) as H1.
  pose proof (executions_run_settled c d k Hk) as H2.
  destruct (IH (run c d)) as [H3 H4]; [congruence|].
  split; congruence.
Qed.

Lemma progress_ready k t vals s : ∀ c,
  entries c !! k = Some (t, Pending) →
  resolve_args c (t_args t) = Ready vals →
  ((k ∉ s.*1) ∧ state_of (progress s c) k = Some Pending)
  ∨ (∃ w, (k, w) ∈ s ∧ state_of (progress s c) k = Some (settle k w (t_fn t vals))).
Proof.
  induction s as [|d s IH]; intros c Hk Hr.
  - left. split; [set_solver|]. apply state_of_Some. eauto.
  - rewrite progress_cons. destruct (decide (d.1 = k)) as [<-|Hne].
    + right. exists d.2.
      split; [destruct d; left|].
      destruct (run_cases c d) as [Hidle|t0 e w o Ht Hr'|t0 vals0 Ht Hr'].
      * rewrite (Hidle _ Hk) in Hr. done.
      * congruence.
      * assert (t0 = t) as -> by congruence.
        assert (vals0 = vals) as -> by congruence.
        set (c1 := record_run _ _ _).
        assert (H1 : state_of c1 d.1 = Some (settle d.1 d.2 (t_fn t vals))).
        { unfold c1, record_run, state_of. cbn.
          pose proof (state_of_set_state d.1 (settle d.1 d.2 (t_fn t vals)) c d.1) as H.
          rewrite decide_True in H by done. unfold state_of in H. rewrite H, Hk. done. }
        apply keeps_progress; [done | apply settle_not_pending].
    + destruct (IH (run c d)) as [[Hn Hs]|(w & Hw & Hs)].
      * by rewrite entries_run_other.
      * eapply keeps_resolve_args; [apply keeps_run | done].
      * left. split; [|done]. cbn. intros [E|E]%elem_of_cons; done.
      * right. exists w. split; [by right | done].
Qed.

Lemma origin_of_failure c : sound c → ∀ k e w o,
  state_of c k = Some (Erred e w o) →
  ∃ t vals, entries c !! o = Some (t, Erred e w o)
    ∧ resolve_args c (t_args t) = Ready vals ∧ t_fn t vals = Err e.
Proof.
  intros [Hc Ha] k. induction (lt_wf k) as [k _ IH]. intros e w o Hk.
  apply state_of_Some in Hk as [t Hk].
  destruct (Hc k t _ Hk) as [(-> & vals & Hr & Hf)|(d & Hd & Hst)].
  - eauto.
  - apply (IH d); [|done].
    assert (Ht : tasks c !! k = Some t) by (apply task_lookup; eauto).
    specialize (Ha k t Ht). rewrite Forall_forall in Ha. by apply Ha.
Qed.

Lemma resolve_all_not_Waiting {A} (l : list (resolved A)) :
  Forall (λ r, r ≠ Waiting) l → resolve_all l ≠ Waiting.
Proof.
  induction 1 as [|r l Hr _ IH]; cbn; [done|].
  destruct r; destruct (resolve_all l); done.
Qed.

Lemma resolve_key_settled c k st :
  state_of c k = Some st → st ≠ Pending → resolve_key c k ≠ Waiting.
Proof. unfold resolve_key. intros -> H. by destruct st. Qed.

Lemma resolve_args_settled c args :
  Forall (λ d, ∃ st, state_of c d = Some st ∧ st ≠ Pending) (deps args) →
  resolve_args c args ≠ Waiting.
Proof.
  intros Hd. apply resolve_all_not_Waiting. apply Forall_fmap, Forall_forall.
  intros a Ha. cbn.
  assert (Hka : ∀ d, d ∈ arg_keys a → resolve_key c d ≠ Waiting).
  { intros d Hin. rewrite Forall_forall in Hd.
    destruct (Hd d) as (st & Hst & Hne); [apply elem_of_deps; eauto|].
    by eapply resolve_key_settled. }
  destruct a as [x|k|ks]; cbn in *; [done | apply Hka; set_solver |].
  assert (resolve_all (resolve_key c <$> ks) ≠ Waiting).
  { apply resolve_all_not_Waiting, Forall_fmap, Forall_forall. intros d Hin.
    by apply Hka. }
  by destruct (resolve_all (resolve_key c <$> ks)).
Qed.

Lemma settled_below_keeps c c' j :
  keeps c c' → settled_below c j → settled_below c' j.
Proof. intros Hk Hs k Hlt. destruct (Hs k Hlt) as (st & Hst & Hne). eauto. Qed.

Lemma run_settles c j w :
  acyclic c → settled_below c j → j < length (entries c) →
  settled_below (run c (j, w)) (S j).
Proof.
  intros Ha Hs Hj k Hk.
  destruct (decide (k = j)) as [->|Hne].
  2:{ eapply (settled_below_keeps c); [apply keeps_run | done | lia]. }
  destruct (lookup_lt_is_Some_2 (entries c) j Hj) as [[t st] Ht].
  assert (Hst : st = Pending ∨ st ≠ Pending) by (destruct st; auto).
  destruct Hst as [->|Hst].
  2:{ exists st. split; [|done]. apply keeps_run; [|done]. apply state_of_Some; eauto. }
  assert (Hr : resolve_args c (t_args t) ≠ Waiting).
  { apply resolve_args_settled.
    assert (Htk : tasks c !! j = Some t) by (apply task_lookup; eauto).
    eapply Forall_impl; [exact (Ha j t Htk)|]. cbn. intros d Hd. by apply Hs. }
  destruct (run_cases c (j, w)) as [Hidle|t0 e w' o Ht' _|t0 vals Ht' _]; cbn in *.
  - by specialize (Hidle t Ht).
  - exists (Erred e w' o). split; [|done].
    rewrite state_of_set_state, decide_True by done.
    unfold state_of. by rewrite Ht.
  - exists (settle j w (t_fn t0 vals)). split; [|apply settle_not_pending].
    unfold record_run, state_of. cbn.
    pose proof (state_of_set_state j (settle j w (t_fn t0 vals)) c j) as H.
    rewrite decide_True in H by done. unfold state_of in H. by rewrite H, Ht.
Qed.

(** A schedule that visits the tasks in key order, whatever else it
    does in between and whichever workers it picks, settles them all. *)
Lemma sweep_settles m s : ∀ j c,
  acyclic c → m ≤ length (entries c) → settled_below c j →
  seq j (m - j) `sublist_of` s.*1 →
  settled_below (progress s c) m.
Proof.
  induction s as [|d s IH]; intros j c Ha Hm Hs Hsub.
  - cbn in Hsub. apply sublist_nil_r in Hsub.
    destruct (m - j) eqn:E; [|done].
    intros k Hk. apply Hs. lia.
  - rewrite progress_cons. cbn in Hsub.
    destruct (m - j) as [|n] eqn:E.
    { eapply settled_below_keeps; [apply keeps_progress|].
      eapply settled_below_keeps; [apply keeps_run|].
      intros k Hk. apply Hs. lia. }
    cbn in Hsub. apply sublist_cons_r in Hsub as [Hsub|(l' & Heq & Hsub)].
    + apply (IH j).
      * by apply acyclic_run.
      * by rewrite <- length_tasks, tasks_run, length_tasks.
      * eapply settled_below_keeps; [apply keeps_run | done].
      * by rewrite E.
    + injection Heq as Hd <-. apply (IH (S j)).
      * by apply acyclic_run.
      * by rewrite <- length_tasks, tasks_run, length_tasks.
      * destruct d as [k w]. cbn in Hd. subst k. apply run_settles; [done | done | lia].
      * by replace (m - S j) with n by lia.
Qed.

End Progress.

Section Arithmetic.

Lemma wrap64_mod a b :
  (a mod 2 ^ 64 = b mod 2 ^ 64)%Z → wrap64 a = wrap64 b.
Proof.
  intros H. unfold wrap64. f_equal.
  rewrite (Z.add_mod a), (Z.add_mod b) by lia. by rewrite H.
Qed.

Lemma wrap64_idem_mod a : (wrap64 a mod 2 ^ 64 = a mod 2 ^ 64)%Z.
Proof.
  unfold wrap64. rewrite Zminus_mod_idemp_l. f_equal. lia.
Qed.

Lemma wrap64_add_l a b : wrap64 (wrap64 a + b) = wrap64 (a + b).
Proof.
  apply wrap64_mod. rewrite (Z.add_mod (wrap64 a)), (Z.add_mod a) by lia.
  by rewrite wrap64_idem_mod.
Qed.

Lemma wrap64_add_r a b : wrap64 (a + wrap64 b) = wrap64 (a + b).
Proof. rewrite (Z.add_comm a), wrap64_add_l. f_equal. lia. Qed.

Lemma Zsum_cons x l : Zsum (x :: l) = (x + Zsum l)%Z.
Proof. done. Qed.

Lemma Zsum_app l1 l2 : Zsum (l1 ++ l2) = (Zsum l1 + Zsum l2)%Z.
Proof. unfold Zsum. induction l1 as [|x l1 IH]; cbn; [done|]. rewrite IH. lia. Qed.

Lemma Zsum_Permutation l1 l2 : Permutation l1 l2 → Zsum l1 = Zsum l2.
Proof. unfold Zsum. induction 1; cbn; lia. Qed.

Lemma wrap64_Zsum_wrap l : wrap64 (Zsum (wrap64 <$> l)) = wrap64 (Zsum l).
Proof.
  induction l as [|x l IH]; [done|]. rewrite fmap_cons, !Zsum_cons.
  rewrite wrap64_add_l, <- wrap64_add_r, IH, wrap64_add_r. done.
Qed.

Lemma sum_from_int64 l : ∀ a,
  sum_from (VInt64 (wrap64 a)) (VInt64 <$> l) = Ok (VInt64 (wrap64 (a + Zsum l))).
Proof.
  induction l as [|x l IH]; intros a.
  - cbn. by rewrite Z.add_0_r.
  - rewrite fmap_cons, Zsum_cons. cbn [sum_from py_add res_bind].
    rewrite wrap64_add_l, IH. do 3 f_equal. lia.
Qed.

(** [sum] over a non-empty list of [int64] partials. *)
Lemma sum_int64 l :
  l ≠ [] → sum [VList (VInt64 <$> l)] = Ok (VInt64 (wrap64 (Zsum l))).
Proof.
  destruct l as [|x l]; [done|]. intros _.
  rewrite fmap_cons, Zsum_cons. cbn [sum sum_from py_add res_bind in_int64].
  replace (in_int64 0) with true by done. cbn [res_bind].
  rewrite Z.add_0_l. by rewrite sum_from_int64.
Qed.

End Arithmetic.

Section Frames.

Lemma first_occurrences_elem seen cols x :
  x ∈ first_occurrences seen cols → x ∈ cols.
Proof.
  revert seen. induction cols as [|c cols IH]; intros seen; cbn; [done|].
  case_decide as Hd.
  - intros H. right. by eapply IH.
  - intros [->|H]%elem_of_cons; [by left|]. right. by eapply IH.
Qed.

Lemma first_occurrences_names seen cols n :
  n ∈ cols.*1 → n ∉ seen → n ∈ (first_occurrences seen cols).*1.
Proof.
  revert seen. induction cols as [|c cols IH]; intros seen; cbn; [done|].
  intros [->|Hin]%elem_of_cons Hn.
  - rewrite decide_False by done. by left.
  - case_decide as Hc; [by apply IH|].
    cbn. destruct (decide (n = c.1)) as [->|Hne]; [by left|].
    right. apply IH; [done|].
    intros [E%elem_of_singleton|E]%elem_of_union; done.
Qed.

Lemma getattr_layout cols name :
  name ∈ (column_layout <$> cols).*1 →
  ∃ c, getattr cols name = Ok c ∧ c ∈ cols ∧ col_name c = name.
Proof.
  induction cols as [|c cols IH]; cbn; [by intros ?%elem_of_nil|].
  intros Hin. destruct (String.eqb_spec (col_name c) name) as [E|E].
  - exists c. split_and!; [done | by left | done].
  - apply elem_of_cons in Hin as [Hin|Hin]; [done|].
    destruct (IH Hin) as (c' & H1 & H2 & H3). exists c'. split_and!; [done | by right | done].
Qed.

(** A loaded table has the passenger count as an [int64] column. *)
Lemma load_countable g rg t :
  "passenger_count" ∈ g_columns g →
  dtypes (pf g) !! "passenger_count" = Some Int64 →
  load g rg = Ok t →
  column_layout <$> df_columns t = layout g ∧ countable (df_columns t).
Proof.
  intros Hin Hdt Hload.
  destruct (run_loader_spec g rg) as (_ & _ & Hok).
  destruct (Hok t Hload) as (_ & Hlay & _). split; [done|].
  destruct (getattr_layout (df_columns t) "passenger_count") as (c & Hc & Hcin & Hname).
  { rewrite Hlay. apply first_occurrences_names; [|set_solver].
    unfold typed_columns. rewrite <- list_fmap_compose.
    change ("passenger_count" ∈ id <$> g_columns g). by rewrite list_fmap_id. }
  exists c. split; [done|].
  assert (Hl : column_layout c ∈ layout g).
  { rewrite <- Hlay. apply list_elem_of_fmap. eauto. }
  apply first_occurrences_elem in Hl. unfold typed_columns in Hl.
  apply list_elem_of_fmap in Hl as (n & Heq & _).
  unfold column_layout in Heq. injection Heq as Hn Ht.
  rewrite Ht, <- Hn, Hname. unfold get_type. cbn. by rewrite Hdt.
Qed.

Lemma f_countable t :
  countable (df_columns t) →
  f [VTable t] = Ok (VInt64 (wrap64 (col_total (df_columns t)))).
Proof.
  intros (c & Hc & Hty). unfold f, col_total. rewrite Hc. cbn.
  unfold Series_sum. by rewrite Hty.
Qed.

Lemma append_columns_same a : ∀ b,
  column_layout <$> a = column_layout <$> b →
  ∃ r, append_columns a b = Ok r
    ∧ column_layout <$> r = column_layout <$> a
    ∧ (countable a → countable r ∧ col_total r = (col_total a + col_total b)%Z).
Proof.
  unfold countable, col_total.
  induction a as [|ca a IH]; intros [|cb b] Hl; try done.
  - exists []. split_and!; [done | done |]. by intros (c & Hc & _).
  - cbn in Hl. injection Hl as Hn Ht Hl.
    destruct (IH b Hl) as (r & Hr & Hlr & Hcount).
    cbn. unfold same_layout. rewrite Hn, Ht, String.eqb_refl.
    assert (dtype_eqb (col_dtype cb) (col_dtype cb) = true) as ->
      by (by destruct (col_dtype cb)).
    cbn. rewrite Hr. cbn. eexists. split; [reflexivity|]. split.
    + cbn. f_equal; [|done]. unfold column_layout. cbn. congruence.
    + cbn [getattr col_name].
      destruct (String.eqb (col_name cb) "passenger_count").
      * intros (c & [= <-] & Hty). split; [|apply Zsum_app].
        eexists. split; [reflexivity|]. cbn. congruence.
      * done.
Qed.

Lemma concat_from_same L ts : ∀ acc,
  column_layout <$> df_columns acc = L →
  Forall (λ t, column_layout <$> df_columns t = L) ts →
  countable (df_columns acc) →
  ∃ df, concat_from acc ts = Ok df
    ∧ countable (df_columns df)
    ∧ col_total (df_columns df) =
        (col_total (df_columns acc) + Zsum ((col_total ∘ df_columns) <$> ts))%Z.
Proof.
  induction ts as [|t ts IH]; intros acc Hacc Hts Hc; cbn.
  - exists acc. split_and!; [done | done | cbn; lia].
  - apply Forall_cons in Hts as [Ht Hts].
    destruct (append_columns_same (df_columns acc) (df_columns t)) as (r & Hr & Hlr & Hcr);
      [congruence|].
    destruct (Hcr Hc) as [Hc' Htot].
    unfold append. rewrite Hr. cbn.
    destruct (IH (MkFrame (df_len acc + df_len t) r)) as (df & Hdf & Hcd & Htd);
      [cbn; congruence | done | done |].
    exists df. split_and!; [done | done |]. rewrite Htd. cbn [df_columns]. rewrite Htot. unfold Zsum. cbn. lia.
Qed.

Lemma res_mapM_Ok {A B} (h : A → res B) (l : list A) :
  Forall (λ x, is_Ok (h x)) l →
  ∃ ys, res_mapM h l = Ok ys ∧ Forall2 (λ x y, h x = Ok y) l ys.
Proof.
  induction 1 as [|x l [y Hy] _ (ys & Hys & HF)]; cbn.
  - exists []. by split.
  - exists (y :: ys). rewrite Hy, Hys. cbn. split; [done|]. by constructor.
Qed.

(** The local computation: the wrapped sum of the partial totals. *)
Lemma local_total_spec g rgs :
  "passenger_count" ∈ g_columns g →
  dtypes (pf g) !! "passenger_count" = Some Int64 →
  Forall (λ rg, is_Ok (load g rg)) rgs →
  rgs ≠ [] →
  local_total g rgs = Ok (VInt64 (wrap64 (Zsum (partial g <$> rgs)))).
Proof.
  intros Hin Hdt Hok Hne. unfold local_total.
  destruct (res_mapM_Ok (load g) rgs Hok) as (ts & -> & HF). cbn [res_bind].
  assert (Hts : Forall (λ t, column_layout <$> df_columns t = layout g
                             ∧ countable (df_columns t)) ts).
  { clear Hne Hok. induction HF as [|rg t rgs ts Hl _ IH]; constructor; [|done].
    by eapply load_countable. }
  assert (Hpart : (col_total ∘ df_columns) <$> ts = partial g <$> rgs).
  { clear Hne Hok Hts. induction HF as [|rg t rgs ts Hl _ IH]; [done|].
    cbn. unfold partial at 1. rewrite Hl. by f_equal. }
  destruct HF as [|rg t rgs ts Hl HF]; [done|]. cbn [Frame.concat].
  apply Forall_cons in Hts as [[Ht Hct] Hts].
  destruct (concat_from_same (layout g) ts t Ht) as (df & -> & Hcd & Htd).
  { eapply Forall_impl; [exact Hts|]. by intros t' [? ?]. }
  { done. }
  cbn [res_bind]. rewrite (f_countable df Hcd). do 3 f_equal.
  rewrite Htd. cbn in Hpart. injection Hpart as Hp1 Hp2.
  cbn. rewrite <- Hp1, <- Hp2. done.
Qed.

End Frames.

Section Exercise.

Lemma tasks_submitted c t : tasks (submitted c t) = tasks c ++ [t].
Proof. unfold tasks, submitted. cbn. by rewrite fmap_app. Qed.

Lemma tasks_submitted_all c ts : tasks (submitted_all c ts) = tasks c ++ ts.
Proof.
  unfold tasks, submitted_all. cbn. rewrite fmap_app, <- list_fmap_compose.
  f_equal. apply list_fmap_id.
Qed.

Lemma sound_submitted_all ts : ∀ c,
  sound c → Forall (λ t, issued c (t_args t)) ts → sound (submitted_all c ts).
Proof.
  induction ts as [|t ts IH]; intros c Hc Hts.
  - unfold submitted_all. cbn. rewrite app_nil_r. by destruct c.
  - apply Forall_cons in Hts as [Ht Hts].
    replace (submitted_all c (t :: ts)) with (submitted_all (submitted c t) ts).
    + apply IH; [by apply sound_submitted|].
      eapply Forall_impl; [exact Hts|]. intros t'. unfold issued, submitted. cbn.
      rewrite length_app. cbn. intros HF.
      eapply Forall_impl; [exact HF|]. cbn. intros d. lia.
    + unfold submitted_all, submitted. cbn. by rewrite <- app_assoc.
Qed.

Lemma map_submitted_all fn xs c :
  Forall (λ x, issued c [x]) xs →
  client.map fn xs c =
    (Ok (seq (length (entries c)) (length xs)),
     submitted_all c ((λ x, Task fn [x]) <$> xs)).
Proof.
  intros H. rewrite map_spec by done. unfold submitted_all.
  by rewrite <- list_fmap_compose.
Qed.

Lemma length_entries_submitted_all c ts :
  length (entries (submitted_all c ts)) = length (entries c) + length ts.
Proof. unfold submitted_all. cbn. by rewrite length_app, length_fmap. Qed.

(** The cells up to the final wait: a sound session holding exactly
    the tasks of the exercise. *)
Lemma total_passengers_unfold g rgs s0 s1 s2 s3 :
  ∃ c, sound c ∧ tasks c = exercise_tasks g rgs
    ∧ total_passengers g rgs s0 s1 s2 s3
      = (Future.result (length rgs + length rgs) s3 c).1.
Proof.
  set (n := length rgs).
  set (ca := submitted_all connect (loader_tasks g rgs)).
  set (cb := progress s0 ca).
  set (cc := submitted_all cb (count_tasks n)).
  set (cd := progress s1 cc).
  set (ce := submitted cd (Task sum [AFuts (seq n n)])).
  assert (Hla : length (entries cb) = n).
  { unfold cb, ca. rewrite length_entries_progress, length_entries_submitted_all.
    unfold loader_tasks. cbn. by rewrite length_fmap. }
  assert (Hlc : length (entries cd) = n + n).
  { unfold cd, cc. rewrite length_entries_progress, length_entries_submitted_all, Hla.
    unfold count_tasks. by rewrite length_fmap, length_seq. }
  assert (Hsa : sound cb).
  { apply sound_progress, sound_submitted_all; [apply sound_connect|].
    unfold loader_tasks. apply Forall_fmap, Forall_forall. intros rg _. constructor. }
  assert (Hsc : sound cd).
  { apply sound_progress, sound_submitted_all; [done|].
    unfold count_tasks. apply Forall_fmap, Forall_forall. intros i Hi.
    apply elem_of_seq in Hi. unfold issued. cbn. rewrite Hla.
    constructor; [lia | constructor]. }
  assert (Hiss : issued cd [AFuts (seq n n)]).
  { unfold issued. cbn. rewrite app_nil_r, Hlc. apply Forall_forall.
    intros d Hd. apply elem_of_seq in Hd. lia. }
  exists (progress s2 ce). split_and!.
  - by apply sound_progress, sound_submitted.
  - rewrite tasks_progress. unfold ce. rewrite tasks_submitted.
    unfold cd. rewrite tasks_progress. unfold cc. rewrite tasks_submitted_all.
    unfold cb. rewrite tasks_progress. unfold ca. rewrite tasks_submitted_all.
    unfold exercise_tasks. cbn. by rewrite <- app_assoc.
  - unfold total_passengers, futures_cell, total_cell.
    unfold mbind at 1. unfold C_bind at 1.
    rewrite (map_submitted_all (read_row_group_fn g) (AVal ∘ VRowGroup <$> rgs) connect).
    2:{ apply Forall_fmap, Forall_forall. intros rg _. constructor. }
    rewrite <- list_fmap_compose. fold (loader_tasks g rgs). fold ca.
    rewrite length_fmap. fold n. cbn [entries connect length].
    unfold mbind at 1. unfold C_bind at 1. unfold meanwhile at 1. fold cb.
    unfold mbind at 1. unfold C_bind at 1.
    rewrite (map_submitted_all f (AFut <$> seq 0 n) cb).
    2:{ apply Forall_fmap, Forall_forall. intros i Hi. apply elem_of_seq in Hi.
        unfold issued. cbn. rewrite Hla. constructor; [lia | constructor]. }
    rewrite <- list_fmap_compose. fold (count_tasks n). fold cc.
    rewrite length_fmap, length_seq, Hla.
    unfold mbind at 1. unfold C_bind at 1. unfold meanwhile at 1. fold cd.
    unfold mbind at 1. unfold C_bind at 1.
    change (progress s1 (submitted_all cb _)) with cd.
    rewrite (submit_spec sum [AFuts (seq n n)] cd Hiss). fold ce. rewrite Hlc.
    unfold mbind at 1. unfold C_bind at 1. unfold meanwhile at 1.
    unfold Future.result. rewrite <- progress_app.
    by destruct (state_of (progress (s2 ++ s3) ce) (n + n)) as [[]|].
Qed.

End Exercise.

Section Layers.

Variables (g : globals) (rgs : list row_group) (c : Client).
Hypothesis Hsound : sound c.
Hypothesis Htasks : tasks c = exercise_tasks g rgs.
Hypothesis Hcol : "passenger_count" ∈ g_columns g.
Hypothesis Hdt : dtypes (pf g) !! "passenger_count" = Some Int64.
Hypothesis Hload : Forall (λ rg, is_Ok (load g rg)) rgs.

Local Abbreviation n := (length rgs).

Lemma entry_of_task k t st :
  exercise_tasks g rgs !! k = Some t → state_of c k = Some st →
  entries c !! k = Some (t, st).
Proof.
  intros Ht Hst. apply state_of_Some in Hst as [t' Hk].
  assert (tasks c !! k = Some t') as H by (apply task_lookup; eauto).
  rewrite Htasks in H. congruence.
Qed.

Lemma loader_task i rg :
  rgs !! i = Some rg →
  exercise_tasks g rgs !! i = Some (Task (read_row_group_fn g) [AVal (VRowGroup rg)]).
Proof.
  intros Hi. unfold exercise_tasks, loader_tasks.
  apply lookup_app_l_Some. by rewrite list_lookup_fmap, Hi.
Qed.

Lemma count_task i :
  i < n → exercise_tasks g rgs !! (n + i) = Some (Task f [AFut i]).
Proof.
  intros Hi. unfold exercise_tasks, loader_tasks, count_tasks.
  rewrite lookup_app_r; rewrite length_fmap; [|lia].
  replace (n + i - n) with i by lia.
  apply lookup_app_l_Some. rewrite list_lookup_fmap, lookup_seq_lt by done. done.
Qed.

Lemma sum_task :
  exercise_tasks g rgs !! (n + n) = Some (Task sum [AFuts (seq n n)]).
Proof.
  unfold exercise_tasks, loader_tasks, count_tasks.
  rewrite lookup_app_r; rewrite length_fmap; [|lia].
  rewrite lookup_app_r; rewrite length_fmap, length_seq; [|lia].
  by replace (n + n - n - n) with 0 by lia.
Qed.

Lemma loader_state i rg st :
  rgs !! i = Some rg → state_of c i = Some st →
  st = Pending ∨ ∃ t w, load g rg = Ok t ∧ st = Finished (VTable t) w.
Proof.
  intros Hi Hst.
  pose proof (entry_of_task _ _ _ (loader_task i rg Hi) Hst) as He.
  destruct Hsound as [Hc _]. specialize (Hc _ _ _ He).
  assert (is_Ok (load g rg)) as [t Ht].
  { rewrite Forall_forall in Hload. apply Hload. by eapply list_elem_of_lookup_2. }
  destruct st as [|v w|e w o]; cbn in Hc.
  - by left.
  - right. destruct Hc as (vals & [= <-] & Hf). cbn in Hf. rewrite Ht in Hf.
    injection Hf as <-. eauto.
  - destruct Hc as [(_ & vals & [= <-] & Hf)|(d & Hd & _)].
    + cbn in Hf. by rewrite Ht in Hf.
    + by apply elem_of_nil in Hd.
Qed.

Lemma count_state i rg st :
  rgs !! i = Some rg → state_of c (n + i) = Some st →
  st = Pending ∨ ∃ w, st = Finished (VInt64 (wrap64 (partial g rg))) w.
Proof.
  intros Hi Hst.
  assert (Hlt : i < n) by (by eapply lookup_lt_Some).
  pose proof (entry_of_task _ _ _ (count_task i Hlt) Hst) as He.
  destruct Hsound as [Hc _]. specialize (Hc _ _ _ He).
  assert (Hready : ∀ vals, resolve_args c [AFut i] = Ready vals →
            ∃ t, load g rg = Ok t ∧ vals = [VTable t]).
  { intros vals. unfold resolve_args. cbn.
    destruct (resolve_key c i) as [v| |] eqn:Hk; try done. intros [= <-].
    apply resolve_key_Ready in Hk as [w Hk].
    destruct (loader_state i rg _ Hi Hk) as [|(t & w' & Ht & [= -> ->])]; [done|].
    eauto. }
  assert (Hf : ∀ t, load g rg = Ok t →
            f [VTable t] = Ok (VInt64 (wrap64 (partial g rg)))).
  { intros t Ht. unfold partial. rewrite Ht. apply f_countable.
    by eapply load_countable. }
  destruct st as [|v w|e w o]; cbn in Hc.
  - by left.
  - right. destruct Hc as (vals & Hr & Hfv).
    destruct (Hready _ Hr) as (t & Ht & ->). rewrite (Hf t Ht) in Hfv.
    injection Hfv as <-. eauto.
  - destruct Hc as [(_ & vals & Hr & Hfv)|(d & Hd & Hdst)].
    + destruct (Hready _ Hr) as (t & Ht & ->). by rewrite (Hf t Ht) in Hfv.
    + apply list_elem_of_singleton in Hd as ->.
      by destruct (loader_state i rg _ Hi Hdst) as [|(t & w' & _ & ?)].
Qed.

Lemma total_state st :
  rgs ≠ [] → state_of c (n + n) = Some st →
  st = Pending
  ∨ ∃ w, st = Finished (VInt64 (wrap64 (Zsum (partial g <$> rgs)))) w.
Proof.
  intros Hne Hst.
  pose proof (entry_of_task _ _ _ sum_task Hst) as He.
  destruct Hsound as [Hc _]. specialize (Hc _ _ _ He).
  assert (Hready : ∀ vals, resolve_args c [AFuts (seq n n)] = Ready vals →
            vals = [VList (VInt64 <$> (wrap64 <$> (partial g <$> rgs)))]).
  { intros vals. unfold resolve_args. cbn.
    destruct (resolve_all (resolve_key c <$> seq n n)) as [vs| |] eqn:Hr; try done.
    intros [= <-]. do 2 f_equal.
    apply resolve_all_Ready in Hr.
    assert (Hlen : length vs = n).
    { apply (f_equal length) in Hr. rewrite !length_fmap, length_seq in Hr. done. }
    apply list_eq. intros i. rewrite !list_lookup_fmap.
    destruct (rgs !! i) as [rg|] eqn:Hi; cbn.
    - assert (Hlt : i < n) by (by eapply lookup_lt_Some).
      apply (f_equal (λ l, l !! i)) in Hr.
      rewrite !list_lookup_fmap, lookup_seq_lt in Hr by done. cbn in Hr.
      destruct (vs !! i) as [v|] eqn:Hv; cbn in Hr; [|done].
      injection Hr as Hk. apply resolve_key_Ready in Hk as [w Hk].
      destruct (count_state i rg _ Hi Hk) as [|(w' & [= -> ->])]; done.
    - apply lookup_ge_None in Hi.  apply lookup_ge_None. lia. }
  assert (Hsum : sum [VList (VInt64 <$> (wrap64 <$> (partial g <$> rgs)))]
                 = Ok (VInt64 (wrap64 (Zsum (partial g <$> rgs))))).
  { rewrite sum_int64 by (by destruct rgs). by rewrite wrap64_Zsum_wrap. }
  destruct st as [|v w|e w o]; cbn in Hc.
  - by left.
  - right. destruct Hc as (vals & Hr & Hfv).
    rewrite (Hready _ Hr), Hsum in Hfv. injection Hfv as <-. eauto.
  - destruct Hc as [(_ & vals & Hr & Hfv)|(d & Hd & Hdst)].
    + by rewrite (Hready _ Hr), Hsum in Hfv.
    + rewrite app_nil_r in Hd. apply elem_of_seq in Hd.
      destruct (lookup_lt_is_Some_2 rgs (d - n)) as [rg Hrg]; [lia|].
      replace d with (n + (d - n)) in Hdst by lia.
      by destruct (count_state _ rg _ Hrg Hdst) as [|(w' & ?)].
Qed.

End Layers.

Lemma first_occurrences_NoDup cols : ∀ seen,
  NoDup cols.*1 → (∀ n, n ∈ cols.*1 → n ∉ seen) →
  first_occurrences seen cols = cols.
Proof.
  induction cols as [|c cols IH]; intros seen Hnd Hseen; [done|].
  cbn in *. apply NoDup_cons in Hnd as [Hc Hnd].
  rewrite decide_False by (apply Hseen; by left). f_equal.
  apply IH; [done|]. intros n Hn [E%elem_of_singleton|E]%elem_of_union.
  - by subst.
  - apply (Hseen n); [by right | done].
Qed.

Lemma columns_NoDup : NoDup columns.
Proof. compute_done. Qed.

Lemma layout_notebook p gc : (layout (notebook p gc)).*1 = columns.
Proof.
  unfold layout, typed_columns. cbn [g_columns notebook].
  rewrite first_occurrences_NoDup.
  - rewrite <- list_fmap_compose. apply list_fmap_id.
  - rewrite <- list_fmap_compose.
    change (NoDup (id <$> columns)). rewrite list_fmap_id. apply columns_NoDup.
  - intros n _. apply not_elem_of_empty.
Qed.

(** C3. Whatever the module-level column list, a table returned by
    [read_row_group] has the declared row count of its row group as the
    length of its index and of every column. *)
Theorem read_row_group_column_lengths (g : globals) (rg : row_group) (df : DataFrame) :
  load g rg = Ok df →
  df_len df = num_rows rg
  ∧ Forall (λ c, length (cells c) = num_rows rg) (df_columns df).
Proof.
  intros H. destruct (run_loader_spec g rg) as (_ & _ & Hok).
  destruct (Hok df H) as (H1 & _ & H3). by split.
Qed.

Lemma read_row_group_column_lengths_witness :
  load taxi rg_a = Ok table_a
  ∧ df_len table_a = 3
  ∧ Forall (λ c, length (cells c) = 3) (df_columns table_a).
Proof.
  split; [by vm_compute|].
  apply (read_row_group_column_lengths taxi rg_a table_a). by vm_compute.
Defined.

(** C10. [read_row_group] takes the row group and nothing else: a second
    positional argument is a [TypeError]; the table it returns has
    exactly the ten names of the module-level [columns], in that order. *)
Theorem read_row_group_fixed_columns (p : ParquetFile) (gc : GCSFileSystem)
    (rg : row_group) (df : DataFrame) :
  load (notebook p gc) rg = Ok df →
  col_name <$> df_columns df = columns
  ∧ length (df_columns df) = 10
  ∧ ∀ v, read_row_group_fn (notebook p gc) [VRowGroup rg; v] = Err (PyExn "TypeError").
Proof.
  intros H. destruct (run_loader_spec (notebook p gc) rg) as (_ & _ & Hok).
  destruct (Hok df H) as (_ & Hlay & _).
  assert (Hn : col_name <$> df_columns df = columns).
  { rewrite <- (layout_notebook p gc), <- Hlay, <- list_fmap_compose. done. }
  split_and!; [done | | done].
  apply (f_equal length) in Hn. by rewrite length_fmap in Hn.
Qed.

Lemma read_row_group_fixed_columns_witness :
  load (notebook taxi_pf taxi_gcs) rg_a = Ok table_a
  ∧ col_name <$> df_columns table_a = columns.
Proof.
  split; [by vm_compute|].
  apply (read_row_group_fixed_columns taxi_pf taxi_gcs rg_a table_a). by vm_compute.
Defined.

(** C5, counterexample. Without [tip_amount] in the schema the loader
    still opens the file and returns a table. *)
Lemma checks_schema_first_counterexample : ¬ checks_schema_first tipless rg_a.
Proof.
  intros H. unfold checks_schema_first in H.
  assert (Hrun : run_loader tipless rg_a ≠ (Err SchemaMismatch, [])) by (by vm_compute).
  apply Hrun, H. exists "tip_amount". split.
  - compute_done.
  - compute_done.
Qed.

(** C5, as amended. [read_row_group] never compares its column names
    with the schema and never fails with [SchemaMismatch]: every call,
    whatever the schema holds, begins its accesses to the storage by
    opening the row group's file, and what follows are reads of column
    chunks of that file; when the file cannot be opened the call fails
    with [SourceUnavailable] and has read nothing. *)
Theorem read_row_group_opens_unchecked (g : globals) (rg : row_group) :
  (∃ reads, (run_loader g rg).2 = Open (row_group_filename (pf g) rg) :: reads
      ∧ Forall is_read reads)
  ∧ (run_loader g rg).1 ≠ Err SchemaMismatch
  ∧ (gcs g !! row_group_filename (pf g) rg = None →
       run_loader g rg = (Err SourceUnavailable, [Open (row_group_filename (pf g) rg)])).
Proof.
  destruct (run_loader_spec g rg) as (Hlog & Herr & _).
  split_and!; [done | |].
  - intros H. destruct (Herr _ H) as [[? _]|[n ?]]; done.
  - intros H. destruct (read_row_group_unfold g rg) as (slots & vs & h0 & _ & _ & _ & _ & Heq).
    unfold run_loader. by rewrite Heq, H.
Qed.

Lemma submitted_entry c t :
  entries (submitted c t) !! length (entries c) = Some (t, Pending).
Proof. unfold submitted. cbn. by rewrite lookup_app_r, Nat.sub_diag. Qed.

Lemma result_state fut s c :
  (Future.result fut s c).1 =
    match state_of (progress s c) fut with
    | Some (Finished v _) => Ok v
    | Some (Erred e w o) => Err (RemoteTaskFailure e w o)
    | Some Pending => Err Timeout
    | None => Err (PyExn "KeyError")
    end
  ∧ (Future.result fut s c).2 = progress s c.
Proof. unfold Future.result. by destruct (state_of _ _) as [[]|]. Qed.

(** C2. Submitting [fn] on a value and asking for the result gives what
    [fn] gives locally, on whichever worker and at whichever point of the
    schedule the task runs: the value [fn] returns, or the exception it
    raises, wrapped with the worker and the task. A schedule that never
    runs the task ends the wait with [Timeout]. *)
Theorem result_of_submit (fn : pyfun) (x : value) (c : Client)
    (s : list (key * worker)) :
  let k := length (entries c) in
  let r := ((k' ← client.submit fn [AVal x]; Future.result k' s) c).1 in
  (k ∈ s.*1 →
     match fn [x] with
     | Ok v => r = Ok v
     | Err e => ∃ w, r = Err (RemoteTaskFailure e w k)
     end)
  ∧ (k ∉ s.*1 → r = Err Timeout).
Proof.
  intros k r. subst r. unfold mbind, C_bind.
  rewrite submit_spec by constructor. fold k.
  destruct (result_state k s (submitted c (Task fn [AVal x]))) as [-> _].
  destruct (progress_ready k (Task fn [AVal x]) [x] s (submitted c (Task fn [AVal x])))
    as [[Hn ->]|(w & Hw & ->)]; [apply submitted_entry | done | |].
  - split; [done | done].
  - split; [|intros Hn; exfalso; apply Hn; apply list_elem_of_fmap; by exists (k, w)].
    intros _. cbn. destruct (fn [x]); cbn; eauto.
Qed.

(** C4. [map] over arguments whose futures have been issued returns one
    future per argument, in the order of the arguments: the future at
    position [i] is the task that applies the function to the argument at
    position [i]; the futures are distinct and nothing has run yet. *)
Theorem map_preserves_order (fn : pyfun) (xs : list arg) (c : Client) :
  Forall (λ x, issued c [x]) xs →
  ∃ futs c', client.map fn xs c = (Ok futs, c')
    ∧ length futs = length xs
    ∧ NoDup futs
    ∧ runs c' = runs c
    ∧ ∀ i x, xs !! i = Some x →
        ∃ k, futs !! i = Some k ∧ entries c' !! k = Some (Task fn [x], Pending).
Proof.
  intros H. rewrite map_spec by done. eexists _, _. split; [reflexivity|].
  split_and!.
  - by rewrite length_seq.
  - apply NoDup_seq.
  - done.
  - intros i x Hi. exists (length (entries c) + i). split.
    + apply lookup_seq_lt. by eapply lookup_lt_Some.
    + cbn. rewrite lookup_app_r by lia.
      replace (length (entries c) + i - length (entries c)) with i by lia.
      by rewrite list_lookup_fmap, Hi.
Qed.

Lemma map_preserves_order_witness :
  ∃ futs c', client.map len [AVal (VList []); AVal (VInt 7); AVal VNone] connect
             = (Ok futs, c')
    ∧ length futs = 3.
Proof.
  destruct (map_preserves_order len [AVal (VList []); AVal (VInt 7); AVal VNone] connect)
    as (futs & c' & H1 & H2 & _).
  - repeat constructor.
  - by exists futs, c'.
Defined.

(** C6. On a sound session [submit] returns a pending future and runs
    nothing, whatever the function will do. A failure shows at [result]
    only: if the function raises on its resolved arguments, every wait
    during which the task runs raises that exception, wrapped with the
    worker and this task; and whatever [result] raises besides
    [Timeout] wraps the exception that the named task's function raised on
    its arguments on the named worker. *)
Theorem submit_defers_failure (fn : pyfun) (args : list arg) (c : Client) :
  sound c → issued c args →
  ∃ k c1, client.submit fn args c = (Ok k, c1)
    ∧ state_of c1 k = Some Pending
    ∧ runs c1 = runs c
    ∧ (∀ vals e s, resolve_args c1 args = Ready vals → fn vals = Err e →
         k ∈ s.*1 → ∃ w, (Future.result k s c1).1 = Err (RemoteTaskFailure e w k))
    ∧ (∀ s err, (Future.result k s c1).1 = Err err →
         err = Timeout
         ∨ ∃ e w o t vals, err = RemoteTaskFailure e w o
             ∧ entries (progress s c1) !! o = Some (t, Erred e w o)
             ∧ resolve_args (progress s c1) (t_args t) = Ready vals
             ∧ t_fn t vals = Err e).
Proof.
  intros Hs Hiss. rewrite submit_spec by done.
  set (k := length (entries c)). set (c1 := submitted c (Task fn args)).
  exists k, c1. split; [done|].
  assert (Hk : entries c1 !! k = Some (Task fn args, Pending)) by apply submitted_entry.
  split_and!.
  - apply state_of_Some. eauto.
  - done.
  - intros vals e s Hr Hf Hin.
    destruct (result_state k s c1) as [-> _].
    destruct (progress_ready k (Task fn args) vals s c1 Hk Hr) as [[Hn _]|(w & _ & ->)];
      [done|]. cbn. rewrite Hf. cbn. eauto.
  - intros s err. destruct (result_state k s c1) as [-> _].
    assert (Hs' : sound (progress s c1)) by (by apply sound_progress, sound_submitted).
    destruct (state_of (progress s c1) k) as [[|v w|e w o]|] eqn:Hst.
    + intros [= <-]. by left.
    + done.
    + intros [= <-]. right.
      destruct (origin_of_failure _ Hs' k e w o Hst) as (t & vals & H1 & H2 & H3).
      by exists e, w, o, t, vals.
    + exfalso. unfold state_of in Hst. apply fmap_None, lookup_ge_None in Hst.
      rewrite length_entries_progress in Hst. apply lookup_lt_Some in Hk. lia.
Qed.

Lemma submit_defers_failure_witness :
  ∃ k c1, client.submit failing [AVal VNone] connect = (Ok k, c1)
    ∧ state_of c1 k = Some Pending
    ∧ (Future.result k [(0, 3)] c1).1
      = Err (RemoteTaskFailure (PyExn "ZeroDivisionError") 3 0).
Proof.
  destruct (submit_defers_failure failing [AVal VNone] connect)
    as (k & c1 & H1 & H2 & _).
  - apply sound_connect.
  - constructor.
  - exists k, c1. split_and!; [done | done |].
    cbn in H1. injection H1 as <- <-. reflexivity.
Defined.

(** C7. Once [result] has returned a value or raised the failure of the
    future, a second call gives the same outcome, however long it waits,
    and the task has been executed no more often than before. *)
Theorem result_twice (fut : key) (s1 s2 : list (key * worker)) (c : Client) :
  (Future.result fut s1 c).1 ≠ Err Timeout →
  let c1 := (Future.result fut s1 c).2 in
  (Future.result fut s2 c1).1 = (Future.result fut s1 c).1
  ∧ executions (Future.result fut s2 c1).2 fut = executions c1 fut.
Proof.
  intros Hr c1. subst c1.
  destruct (result_state fut s1 c) as [E1 E2].
  destruct (result_state fut s2 (progress s1 c)) as [E3 E4].
  rewrite E2, E3, E4. rewrite E1 in Hr |- *.
  assert (Hst : state_of (progress s1 c) fut ≠ Some Pending).
  { intros H. by rewrite H in Hr. }
  destruct (settled_progress fut s2 (progress s1 c) Hst) as [-> H2].
  by split.
Qed.

Lemma result_twice_witness :
  let c0 := (client.submit len [AVal (VList [VNone; VNone])] connect).2 in
  let c1 := (Future.result 0 [(0, 1)] c0).2 in
  (Future.result 0 [(0, 2); (0, 1)] c1).1 = Ok (VInt 2)
  ∧ executions (Future.result 0 [(0, 2); (0, 1)] c1).2 0 = 1.
Proof.
  intros c0 c1.
  destruct (result_twice 0 [(0, 1)] [(0, 2); (0, 1)] c0) as [H1 H2].
  - by vm_compute.
  - split; [exact H1 | exact H2].
Defined.

Lemma result_of_submit_witness :
  ((k ← client.submit len [AVal (VList [VNone])]; Future.result k [(0, 4)]) connect).1
  = Ok (VInt 1).
Proof.
  destruct (result_of_submit len (VList [VNone]) connect [(0, 4)]) as [H _].
  apply H. compute_done.
Defined.

(** The partial sums of the scenario and their total, remotely and
    locally. *)
Example scenario_partials :
  (λ rg, res_bind (load scenario rg) (λ df, f [VTable df])) <$> scenario_rgs
  = [Ok (VInt64 1800); Ok (VInt64 2700); Ok (VInt64 3600)].
Proof. by vm_compute. Qed.

Example scenario_total :
  total_passengers scenario scenario_rgs [] [(1, 0)] []
    [(0, 2); (2, 1); (4, 1); (3, 0); (5, 2); (6, 0)] = Ok (VInt64 8100)
  ∧ local_total scenario scenario_rgs = Ok (VInt64 8100).
Proof. split; by vm_compute. Qed.

(** ** Further properties of the loader and the cells *)


Section Views.

Lemma empty_views cols size : ∀ done (vs : views) s slots vs' s',
  empty cols size done vs s = (Ok (slots, vs'), s') →
  viewed vs done →
  (∀ n r, vs !! n = Some r → r < length (heap s)) →
  separate vs →
  viewed vs' slots ∧ separate vs'.
Proof.
  induction cols as [|[name t] cols IH]; intros done vs s slots vs' s' Heq Hd Hb Hsep.
  - cbn in Heq. injection Heq as <- <- _. by split.
  - cbn in Heq. destruct (vs !! name) as [r|] eqn:Hn.
    + by eapply IH.
    + unfold mbind, L_bind, np_empty in Heq. cbn in Heq.
      eapply IH; [exact Heq | | |].
      * apply Forall_app. split.
        -- eapply Forall_impl; [exact Hd|]. cbn. intros sl Hsl.
           rewrite lookup_insert_ne; [done|]. intros E. rewrite <- E in Hsl. congruence.
        -- constructor; [|constructor]. cbn. apply lookup_insert_eq.
      * cbn. intros n r. rewrite length_app. cbn.
        destruct (decide (name = n)) as [<-|Hne].
        -- rewrite lookup_insert_eq. intros [= <-]. lia.
        -- rewrite lookup_insert_ne by done. intros H%Hb. lia.
      * intros n1 n2 r.
        destruct (decide (name = n1)) as [<-|H1]; destruct (decide (name = n2)) as [<-|H2];
          rewrite ?lookup_insert_eq, ?lookup_insert_ne by done; try done.
        -- intros [= <-] H%Hb. lia.
        -- intros H%Hb [= <-]. lia.
        -- apply Hsep.
Qed.

Lemma pre_allocate_views size cols dt s slots (vs : views) s' :
  _pre_allocate size cols [] None [] dt s = (Ok (Frame_ size slots, vs), s') →
  viewed vs slots ∧ separate vs.
Proof.
  unfold _pre_allocate, mbind, L_bind.
  destruct (empty _ _ _ _ _) as [[[slots0 vs0]|e] s0] eqn:Heq; [|done].
  cbn. intros [= <- <- <-].
  eapply empty_views; [exact Heq | constructor | |].
  - intros n r. by rewrite lookup_empty.
  - intros n1 n2 r. by rewrite lookup_empty.
Qed.

Lemma getattr_freeze h size (vs : views) name r : ∀ slots,
  viewed vs slots → vs !! name = Some r →
  name ∈ slot_name <$> slots →
  ∃ c, getattr (df_columns (freeze h (Frame_ size slots))) name = Ok c
    ∧ cells c = default [] (h !! r).
Proof.
  unfold freeze. cbn [fr_slots df_columns].
  induction slots as [|sl slots IH]; intros Hv Hr Hin; [by apply elem_of_nil in Hin|].
  apply Forall_cons in Hv as [Hsl Hv]. cbn [fmap list_fmap getattr col_name].
  destruct (String.eqb_spec (slot_name sl) name) as [E|E].
  - eexists. split; [done|]. cbn. rewrite E in Hsl. congruence.
  - apply IH; [done | done |]. cbn in Hin. apply elem_of_cons in Hin as [Hin|Hin]; done.
Qed.

Lemma write_page_frame r num p s r' :
  r' ≠ r → heap (write_page r num p s).2 !! r' = heap s !! r'.
Proof.
  intros Hne. unfold write_page. destruct (heap s !! r) as [a|]; [|done].
  case_decide; [|by case_decide]. cbn. by rewrite list_lookup_insert_ne.
Qed.

Lemma write_pages_frame r pages r' : ∀ num s,
  r' ≠ r → heap (write_pages r num pages s).2 !! r' = heap s !! r'.
Proof.
  induction pages as [|p pages IH]; intros num s Hne; [done|].
  cbn. unfold mbind, L_bind.
  pose proof (write_page_frame r num p s r' Hne) as H.
  destruct (write_page r num p s) as [[n'|e] s1]; cbn in *; [|done].
  by rewrite IH.
Qed.

Lemma write_pages_heap r pages : ∀ num s a,
  heap s !! r = Some a →
  num + length (List.concat pages) ≤ length a →
  heap (write_pages r num pages s).2 !! r
  = Some (take num a ++ List.concat pages ++ drop (num + length (List.concat pages)) a).
Proof.
  induction pages as [|p pages IH]; intros num s a Ha Hfit.
  - cbn. rewrite Nat.add_0_r, take_drop. done.
  - cbn [List.concat] in *. rewrite length_app in Hfit.
    cbn [write_pages]. unfold mbind, L_bind, write_page. rewrite Ha.
    rewrite decide_True by lia.
    set (a1 := take num a ++ p ++ drop (num + length p) a).
    assert (Hlen : length a1 = length a).
    { unfold a1. rewrite !length_app, length_take, length_drop. lia. }
    assert (Htake : take (num + length p) a1 = take num a ++ p).
    { unfold a1. rewrite app_assoc. apply take_app_length'.
      rewrite length_app, length_take. lia. }
    assert (Hdrop : drop (num + length p + length (List.concat pages)) a1
                    = drop (num + (length p + length (List.concat pages))) a).
    { unfold a1. rewrite app_assoc, drop_app_ge; rewrite length_app, length_take; [|lia].
      rewrite drop_drop. f_equal. lia. }
    rewrite (IH _ _ a1).
    + rewrite Htake, Hdrop, length_app. by rewrite <- !app_assoc.
    + cbn. apply list_lookup_insert_eq. by eapply lookup_lt_Some.
    + lia.
Qed.

Lemma read_chunks_app a b cols fl (vs : views) s :
  read_chunks (a ++ b) cols [] fl vs s =
    match read_chunks a cols [] fl vs s with
    | (Ok _, s1) => read_chunks b cols [] fl vs s1
    | (Err e, s1) => (Err e, s1)
    end.
Proof.
  revert s. induction a as [|c a IH]; intros s; [done|].
  cbn [app read_chunks]. destruct (negb _ || _); [apply IH|].
  destruct (vs !! path_in_schema c) as [r|]; [|done].
  unfold mbind, L_bind. destruct (read_col c fl r s) as [[[]|e] s1]; [apply IH | done].
Qed.

Lemma read_chunks_untouched name r chunks cols fl (vs : views) :
  separate vs → vs !! name = Some r →
  Forall (λ c, path_in_schema c ≠ name) chunks →
  ∀ s, heap (read_chunks chunks cols [] fl vs s).2 !! r = heap s !! r.
Proof.
  intros Hsep Hr. induction 1 as [|c chunks Hc _ IH]; intros s; [done|].
  cbn [read_chunks]. destruct (negb _ || _); [apply IH|].
  destruct (vs !! path_in_schema c) as [r'|] eqn:Hr'; [|done].
  unfold mbind at 1. unfold L_bind. rewrite read_col_unfold. cbn zeta.
  assert (Hne : r ≠ r').
  { intros <-. apply Hc. by apply (Hsep _ _ r). }
  destruct (fl !! file_offset c) as [pages|]; [|done].
  set (s' := LState (heap s) (io_log s ++ [Read (file_offset c)])).
  pose proof (write_pages_frame r' pages r 0 s' Hne) as H.
  destruct (write_pages r' 0 pages s') as [[[]|e] s1]; cbn in *; [|done].
  by rewrite IH.
Qed.

End Views.

Lemma load_stored_column (g : globals) (rg : row_group) (df : DataFrame)
    (pre post : list column_chunk) (ch : column_chunk) (fl : file)
    (pages : list (list Z)) :
  load g rg = Ok df →
  rg_columns rg = pre ++ ch :: post →
  Forall (λ c, path_in_schema c ≠ path_in_schema ch) (pre ++ post) →
  path_in_schema ch ∈ g_columns g →
  gcs g !! row_group_filename (pf g) rg = Some fl →
  fl !! file_offset ch = Some pages →
  length (List.concat pages) = num_rows rg →
  ∃ c, getattr (df_columns df) (path_in_schema ch) = Ok c
    ∧ cells c = List.concat pages.
Proof.
  intros Hload Hch Hother Hin Hfl Hpages Hlen.
  apply Forall_app in Hother as [Hpre Hpost].
  destruct (pre_allocate_spec (num_rows rg) (g_columns g) (dtypes (pf g)) (LState [] []))
    as (slots & vs & h0 & Heq & Hsl & Hvs & Hlay & Hdom).
  destruct (pre_allocate_views _ _ _ _ _ _ _ Heq) as [Hview Hsep].
  pose proof (Hdom _ Hin) as Hd. apply elem_of_dom in Hd as [r Hr].
  unfold load, run_loader, read_row_group, read_row_group_file, mbind, L_bind in Hload.
  rewrite Heq in Hload. unfold gcs_open in Hload. cbn [heap io_log app] in Hload.
  rewrite Hfl, Hch in Hload.
  set (s0 := LState h0 [Open (row_group_filename (pf g) rg)]) in *.
  rewrite read_chunks_app in Hload.
  pose proof (read_chunks_untouched _ r pre (g_columns g) fl vs Hsep Hr Hpre s0) as Hpre'.
  pose proof (quiet_read_chunks pre (g_columns g) [] fl vs s0) as (Hsh1 & _ & _).
  destruct (read_chunks pre _ _ _ _ s0) as [[[]|e] s1]; [|done].
  cbn [snd] in Hpre', Hsh1.
  cbn [read_chunks] in Hload. unfold has_name in Hload.
  rewrite (bool_decide_eq_false_2 (_ ∈ [])) in Hload by (apply not_elem_of_nil).
  rewrite bool_decide_eq_true_2 in Hload by done. cbn [negb orb] in Hload.
  rewrite Hr in Hload. unfold mbind at 1 in Hload. unfold L_bind in Hload.
  rewrite read_col_unfold in Hload. cbn zeta in Hload. rewrite Hpages in Hload.
  destruct (sized_lookup _ _ _ (Hvs _ _ Hr)) as (a & Ha & Hla).
  set (s1' := LState (heap s1) (io_log s1 ++ [Read (file_offset ch)])) in *.
  assert (Ha1 : heap s1' !! r = Some a) by (cbn; by rewrite Hpre').
  pose proof (write_pages_heap r pages 0 s1' a Ha1) as Hw.
  assert (Hfull : length (List.concat pages) = length a) by lia.
  specialize (Hw ltac:(lia)).
  rewrite Nat.add_0_l, Hfull, drop_all, app_nil_r in Hw. cbn [take app] in Hw.
  destruct (write_pages r 0 pages s1') as [[[]|e] s2]; [|done].
  cbn [snd] in Hw.
  pose proof (read_chunks_untouched _ r post (g_columns g) fl vs Hsep Hr Hpost s2) as Hpost'.
  destruct (read_chunks post _ _ _ _ s2) as [[[]|e] s3]; [|done].
  cbn [snd fst] in *. injection Hload as <-.
  destruct (getattr_freeze (heap s3) (num_rows rg) vs (path_in_schema ch) r slots)
    as (c & Hc & Hcells); [done | done | |].
  - assert (Hnames : slot_name <$> slots = (layout g).*1).
    { unfold layout, typed_columns. rewrite <- Hlay, <- list_fmap_compose. done. }
    rewrite Hnames. apply first_occurrences_names; [|apply not_elem_of_empty].
    unfold typed_columns. rewrite <- list_fmap_compose.
    change (path_in_schema ch ∈ id <$> g_columns g). by rewrite list_fmap_id.
  - exists c. split; [done|]. by rewrite Hcells, Hpost', Hw.
Qed.

(** X3. What [read_row_group] returns for a requested column is what the
    file stores for it: when the row group has one chunk for the column
    and the chunk holds as many values as the row group declares, the
    cells of the column are the values of the chunk's pages, in order. *)
Theorem read_row_group_reads_pages (g : globals) (rg : row_group) (df : DataFrame)
    (pre post : list column_chunk) (ch : column_chunk) (fl : file)
    (pages : list (list Z)) :
  load g rg = Ok df →
  rg_columns rg = pre ++ ch :: post →
  Forall (λ c, path_in_schema c ≠ path_in_schema ch) (pre ++ post) →
  path_in_schema ch ∈ g_columns g →
  gcs g !! row_group_filename (pf g) rg = Some fl →
  fl !! file_offset ch = Some pages →
  length (List.concat pages) = num_rows rg →
  ∃ c, getattr (df_columns df) (path_in_schema ch) = Ok c
    ∧ cells c = List.concat pages.
Proof. apply load_stored_column. Qed.

Lemma read_row_group_reads_pages_witness :
  ∃ c, getattr (df_columns table_a) "passenger_count" = Ok c
    ∧ cells c = [1; 2; 5]%Z.
Proof.
  apply (read_row_group_reads_pages taxi rg_a table_a []
           [Chunk "fare_amount" 100 None; Chunk "VendorID" 7 None]
           (Chunk "passenger_count" 4 None)
           taxi_file [[1; 2]; [5]]%Z).
  - by vm_compute.
  - done.
  - repeat constructor; done.
  - compute_done.
  - by vm_compute.
  - by vm_compute.
  - done.
Defined.

Lemma Zsum_concat (l : list (list Z)) : Zsum (List.concat l) = Zsum (Zsum <$> l).
Proof.
  induction l as [|x l IH]; [done|].
  cbn [List.concat]. by rewrite fmap_cons, Zsum_app, Zsum_cons, IH.
Qed.

Lemma partial_stored g rg vals :
  "passenger_count" ∈ g_columns g →
  stores_counts g rg vals → is_Ok (load g rg) →
  partial g rg = Zsum vals.
Proof.
  intros Hin (pre & ch & post & fl & pages & Hcols & Hname & Hother & Hfl & Hoff & Hlen & ->)
         [df Hdf].
  unfold partial. rewrite Hdf.
  destruct (load_stored_column g rg df pre post ch fl pages) as (c & Hc & Hcells);
    try done; try (by rewrite Hname).
  rewrite Hname in Hc. unfold col_total. by rewrite Hc, Hcells.
Qed.

Lemma partials_stored g rgs counts :
  "passenger_count" ∈ g_columns g →
  Forall2 (stores_counts g) rgs counts →
  Forall (λ rg, is_Ok (load g rg)) rgs →
  partial g <$> rgs = Zsum <$> counts.
Proof.
  intros Hin. induction 1 as [|rg vals rgs counts Hst _ IH]; [done|].
  intros [Hrg Hrgs]%Forall_cons. rewrite !fmap_cons.
  by rewrite (partial_stored g rg vals), IH.
Qed.

(** C1, counterexample. On a dataset without row groups the exercise
    returns the Python int 0 once the combiner has run, and the local
    computation raises [ValueError], there being nothing to
    concatenate. *)
Lemma remote_total_is_local_counterexample : ¬ remote_total_is_local taxi [].
Proof.
  intros H. specialize (H [] [] [] [(0, 0)] (VInt 0)).
  assert (Hlocal : local_total taxi [] = Err (PyExn "ValueError")) by done.
  rewrite Hlocal in H. discriminate H. by vm_compute.
Qed.

(** C1, as amended. On a dataset of at least one row group, each of
    which loads and stores its passenger counts in full as [int64],
    loading the row groups remotely, mapping [f] over the futures and
    submitting [sum] over the partial sums gives the sum of the stored
    passenger counts, in [int64] arithmetic, and so does the local
    computation on the concatenated tables. This holds for every
    schedule (which worker runs which task, in which order, between
    which statements) and for every order in which the row groups are
    submitted; a wait during which the tasks run in key order, among any
    other decisions, returns the total, and no wait returns anything
    else. *)
Theorem total_matches_local (g : globals) (rgs rgs' : list row_group)
    (counts : list (list Z)) :
  "passenger_count" ∈ g_columns g →
  dtypes (pf g) !! "passenger_count" = Some Int64 →
  Forall2 (stores_counts g) rgs counts →
  Forall (λ rg, is_Ok (load g rg)) rgs →
  rgs ≠ [] →
  Permutation rgs rgs' →
  let total := VInt64 (wrap64 (Zsum (List.concat counts))) in
  local_total g rgs = Ok total
  ∧ ∀ s0 s1 s2 s3,
      (total_passengers g rgs' s0 s1 s2 s3 = Ok total
       ∨ total_passengers g rgs' s0 s1 s2 s3 = Err Timeout)
      ∧ (seq 0 (2 * length rgs' + 1) `sublist_of` s3.*1 →
         total_passengers g rgs' s0 s1 s2 s3 = Ok total).
Proof.
  intros Hcol Hdt Hst Hload Hne Hperm total. subst total.
  rewrite Zsum_concat, <- (partials_stored g rgs counts Hcol Hst Hload).
  split; [by apply local_total_spec|].
  intros s0 s1 s2 s3.
  destruct (total_passengers_unfold g rgs' s0 s1 s2 s3) as (c & Hs & Ht & ->).
  destruct (result_state (length rgs' + length rgs') s3 c) as [-> _].
  assert (Hs' : sound (progress s3 c)) by (by apply sound_progress).
  assert (Ht' : tasks (progress s3 c) = exercise_tasks g rgs')
    by (by rewrite tasks_progress).
  assert (Hload' : Forall (λ rg, is_Ok (load g rg)) rgs')
    by (by rewrite <- Hperm).
  assert (Hne' : rgs' ≠ []).
  { intros ->. by apply Permutation_nil_r in Hperm. }
  assert (Hsum : Zsum (partial g <$> rgs') = Zsum (partial g <$> rgs)).
  { apply Zsum_Permutation. by rewrite Hperm. }
  assert (Hlen : length (entries c) = 2 * length rgs' + 1).
  { rewrite <- length_tasks, Ht. unfold exercise_tasks, loader_tasks, count_tasks.
    rewrite !length_app, !length_fmap, length_seq. cbn. lia. }
  destruct (state_of (progress s3 c) (length rgs' + length rgs')) as [st|] eqn:Hst'.
  2:{ exfalso. unfold state_of in Hst'. apply fmap_None, lookup_ge_None in Hst'.
      rewrite length_entries_progress in Hst'. lia. }
  destruct (total_state g rgs' (progress s3 c) Hs' Ht' Hcol Hdt Hload' st Hne' Hst')
    as [->|[w ->]].
  - split; [by right|]. intros Hsub. exfalso.
    assert (Hall : settled_below (progress s3 c) (2 * length rgs' + 1)).
    { apply (sweep_settles _ s3 0 c); [apply Hs | lia | intros k Hk; lia |].
      by rewrite Nat.sub_0_r. }
    destruct (Hall (length rgs' + length rgs')) as (st & Hst'' & Hp); [lia|].
    congruence.
  - rewrite Hsum. split; [by left | done].
Qed.

Lemma total_matches_local_witness :
  local_total taxi [rg_a; rg_b] = Ok (VInt64 15)
  ∧ total_passengers taxi [rg_b; rg_a] [(1, 4)] [(0, 2); (3, 2)] []
      [(0, 1); (1, 1); (9, 9); (2, 0); (3, 7); (4, 5)] = Ok (VInt64 15).
Proof.
  destruct (total_matches_local taxi [rg_a; rg_b] [rg_b; rg_a]
              [[1; 2; 5]; [3; 4]]%Z) as (H1 & H2).
  - compute_done.
  - by vm_compute.
  - constructor; [|constructor; [|constructor]].
    + exists [], (Chunk "passenger_count" 4 None),
        [Chunk "fare_amount" 100 None; Chunk "VendorID" 7 None],
        taxi_file, [[1; 2]; [5]]%Z.
      split_and!; [done | done | repeat constructor; done | by vm_compute
                   | by vm_compute | done | done].
    + exists [], (Chunk "passenger_count" 200 None), [],
        taxi_file, [[3]; [4]]%Z.
      split_and!; [done | done | constructor | by vm_compute
                   | by vm_compute | done | done].
  - repeat constructor; eexists; by vm_compute.
  - done.
  - apply perm_swap.
  - split; [exact H1|].
    apply (H2 [(1, 4)] [(0, 2); (3, 2)] []
              [(0, 1); (1, 1); (9, 9); (2, 0); (3, 7); (4, 5)]).
    cbn. repeat first [apply sublist_nil | apply sublist_skip | apply sublist_cons].
Defined.

Section Tables.

Lemma append_columns_uniform a : ∀ b n m,
  column_layout <$> a = column_layout <$> b →
  uniform n a → uniform m b →
  ∃ r, append_columns a b = Ok r
    ∧ column_layout <$> r = column_layout <$> a
    ∧ uniform (n + m) r.
Proof.
  induction a as [|ca a IH]; intros [|cb b] n m Hl Ha Hb; try done.
  - exists []. split_and!; [done | done | constructor].
  - cbn in Hl. injection Hl as Hn Ht Hl.
    apply Forall_cons in Ha as [Hca Ha]. apply Forall_cons in Hb as [Hcb Hb].
    destruct (IH b n m Hl Ha Hb) as (r & Hr & Hlr & Hur).
    cbn. unfold same_layout. rewrite Hn, Ht, String.eqb_refl.
    assert (dtype_eqb (col_dtype cb) (col_dtype cb) = true) as ->
      by (by destruct (col_dtype cb)).
    cbn. rewrite Hr. cbn. eexists. split; [reflexivity|]. split.
    + cbn. f_equal; [|done]. unfold column_layout. cbn. congruence.
    + constructor; [|done]. cbn. rewrite length_app. lia.
Qed.

Lemma concat_from_rows g rgs ts :
  Forall2 (λ rg t, load g rg = Ok t) rgs ts →
  ∀ acc n,
    column_layout <$> df_columns acc = layout g →
    df_len acc = n → uniform n (df_columns acc) →
    ∃ df, concat_from acc ts = Ok df
      ∧ df_len df = n + sum_list (num_rows <$> rgs)
      ∧ uniform (n + sum_list (num_rows <$> rgs)) (df_columns df)
      ∧ column_layout <$> df_columns df = layout g.
Proof.
  induction 1 as [|rg t rgs ts Hl _ IH]; intros acc n Hlay Hlen Hu.
  - exists acc. cbn. rewrite Nat.add_0_r. by split_and!.
  - destruct (run_loader_spec g rg) as (_ & _ & Hok).
    destruct (Hok t Hl) as (Ht1 & Ht2 & Ht3).
    destruct (append_columns_uniform (df_columns acc) (df_columns t) n (num_rows rg))
      as (r & Hr & Hlr & Hur); [congruence | done | done |].
    cbn [concat_from]. unfold append. rewrite Hr. cbn [res_bind].
    destruct (IH (MkFrame (df_len acc + df_len t) r) (n + num_rows rg))
      as (df & Hdf & H1 & H2 & H3); [cbn; congruence | cbn; lia | done |].
    exists df. cbn [fmap list_fmap sum_list].
    rewrite Nat.add_assoc. by split_and!.
Qed.

Lemma getattr_missing cols name :
  name ∉ col_name <$> cols → getattr cols name = Err (PyExn "AttributeError").
Proof.
  induction cols as [|c cols IH]; [done|]. cbn. intros Hn.
  destruct (String.eqb_spec (col_name c) name) as [E|E].
  - exfalso. apply Hn. rewrite E. by left.
  - apply IH. intros H. apply Hn. by right.
Qed.

Lemma layout_names g name : name ∈ (layout g).*1 ↔ name ∈ g_columns g.
Proof.
  assert (Hid : (typed_columns g).*1 = g_columns g).
  { unfold typed_columns. rewrite <- list_fmap_compose. apply list_fmap_id. }
  split.
  - intros H. apply list_elem_of_fmap in H as ([n t] & -> & H).
    apply first_occurrences_elem in H. rewrite <- Hid.
    apply list_elem_of_fmap. by exists (n, t).
  - intros H. apply first_occurrences_names; [by rewrite Hid | apply not_elem_of_empty].
Qed.

End Tables.

(** X4. The tables of the row groups of one dataset fit together:
    concatenating them succeeds, and the result has as many rows, in its
    index and in every column, as the row groups declare in total. *)
Theorem loaded_tables_concat (g : globals) (rgs : list row_group) (ts : list DataFrame) :
  Forall2 (λ rg t, load g rg = Ok t) rgs ts →
  rgs ≠ [] →
  ∃ df, Frame.concat ts = Ok df
    ∧ df_len df = sum_list (num_rows <$> rgs)
    ∧ Forall (λ c, length (cells c) = sum_list (num_rows <$> rgs)) (df_columns df)
    ∧ col_name <$> df_columns df = (layout g).*1.
Proof.
  intros HF Hne. destruct HF as [|rg t rgs ts Hl HF]; [done|].
  destruct (run_loader_spec g rg) as (_ & _ & Hok).
  destruct (Hok t Hl) as (Ht1 & Ht2 & Ht3).
  destruct (concat_from_rows g rgs ts HF t (num_rows rg) Ht2 Ht1 Ht3)
    as (df & Hdf & H1 & H2 & H3).
  exists df. cbn [Frame.concat fmap list_fmap sum_list]. split_and!; try done.
  by rewrite <- H3, <- list_fmap_compose.
Qed.

Lemma loaded_tables_concat_witness :
  ∃ df, Frame.concat [table_a; table_a] = Ok df ∧ df_len df = 6.
Proof.
  destruct (loaded_tables_concat taxi [rg_a; rg_a] [table_a; table_a])
    as (df & H1 & H2 & _).
  - repeat constructor; by vm_compute.
  - done.
  - by exists df.
Defined.

(** X5. On a table that [read_row_group] returned, [f] raises
    [AttributeError] exactly when [passenger_count] is not in the
    module-level column list. *)
Theorem f_needs_passenger_count (g : globals) (rg : row_group) (t : DataFrame) :
  load g rg = Ok t →
  (f [VTable t] = Err (PyExn "AttributeError") ↔ "passenger_count" ∉ g_columns g).
Proof.
  intros Hl. destruct (run_loader_spec g rg) as (_ & _ & Hok).
  destruct (Hok t Hl) as (_ & Hlay & _).
  assert (Hnames : col_name <$> df_columns t = (layout g).*1).
  { by rewrite <- Hlay, <- list_fmap_compose. }
  split.
  - intros Hf Hin. apply layout_names in Hin.
    destruct (getattr_layout (df_columns t) "passenger_count") as (c & Hc & _).
    { by rewrite Hlay. }
    unfold f in Hf. rewrite Hc in Hf. cbn in Hf. unfold Series_sum in Hf.
    by destruct (col_dtype c).
  - intros Hn. unfold f. rewrite getattr_missing; [done|].
    rewrite Hnames. by rewrite layout_names.
Qed.

Lemma f_needs_passenger_count_witness :
  f [VTable table_a] ≠ Err (PyExn "AttributeError").
Proof.
  intros H. apply (f_needs_passenger_count taxi rg_a table_a) in H.
  - apply H. compute_done.
  - by vm_compute.
Defined.

(** X6. Summing the per-table sums is summing the concatenated table:
    for tables with the same columns and an [int64] passenger count,
    [sum] over the values [f] gives on each table equals [f] on their
    concatenation, both with [int64] wrap-around. *)
Theorem sum_of_partials (L : list (string * dtype)) (ts : list DataFrame) :
  ts ≠ [] →
  Forall (λ t, column_layout <$> df_columns t = L ∧ countable (df_columns t)) ts →
  ∃ ps total,
    res_mapM (λ t, f [VTable t]) ts = Ok ps
    ∧ sum [VList ps] = Ok total
    ∧ res_bind (Frame.concat ts) (λ df, f [VTable df]) = Ok total.
Proof.
  intros Hne Hts.
  exists (VInt64 <$> (wrap64 <$> ((col_total ∘ df_columns) <$> ts))),
         (VInt64 (wrap64 (Zsum ((col_total ∘ df_columns) <$> ts)))).
  split_and!.
  - clear Hne. induction Hts as [|t ts [_ Hc] _ IH]; [done|].
    cbn [res_mapM]. rewrite (f_countable t Hc), IH. done.
  - rewrite sum_int64 by (by destruct ts). by rewrite wrap64_Zsum_wrap.
  - destruct ts as [|t ts]; [done|]. apply Forall_cons in Hts as [[Ht Hc] Hts].
    cbn [Frame.concat].
    destruct (concat_from_same L ts t Ht) as (df & -> & Hcd & Htd).
    { eapply Forall_impl; [exact Hts|]. by intros t' [? ?]. }
    { done. }
    cbn [res_bind]. rewrite (f_countable df Hcd), Htd. done.
Qed.

Lemma sum_of_partials_witness :
  ∃ ps total,
    res_mapM (λ t, f [VTable t]) [table_a; table_a] = Ok ps
    ∧ sum [VList ps] = Ok total
    ∧ res_bind (Frame.concat [table_a; table_a]) (λ df, f [VTable df]) = Ok total.
Proof.
  apply (sum_of_partials (column_layout <$> df_columns table_a)).
  - done.
  - repeat constructor; try done; eexists; split; by vm_compute.
Defined.

Section Orderly.

Lemma orderly_connect : orderly connect.
Proof. split; [constructor | intros k w H; by apply elem_of_nil in H]. Qed.

Lemma entries_set_state_eq c k t st st' :
  entries c !! k = Some (t, st) →
  entries (set_state k st' c) !! k = Some (t, st').
Proof.
  intros H. unfold set_state. rewrite H. cbn.
  apply list_lookup_insert_eq. by eapply lookup_lt_Some.
Qed.

Lemma entries_set_state_ne c k j st' :
  j ≠ k → entries (set_state k st' c) !! j = entries c !! j.
Proof.
  intros H. unfold set_state. destruct (entries c !! k) as [[t st]|]; [|done].
  cbn. by rewrite list_lookup_insert_ne.
Qed.

Lemma ran_not_pending c k w t :
  orderly c → (k, w) ∈ runs c → entries c !! k ≠ Some (t, Pending).
Proof.
  intros [_ Hran] Hin He. destruct (Hran k w Hin) as (t' & vals & He' & _).
  rewrite He in He'. injection He' as _ H. by destruct (t_fn t' vals).
Qed.

Lemma orderly_run_case c d c' :
  run_case c d c' → keeps c c' → orderly c → orderly c'.
Proof.
  intros Hcase Hkeep Ho. pose proof Ho as [Hnd Hran].
  destruct Hcase as [Hidle|t e w o Ht Hr|t vals Ht Hr]; [done | |].
  - split; [by rewrite runs_set_state|]. rewrite runs_set_state.
    intros k w' Hin. destruct (Hran k w' Hin) as (t' & vals & H1 & H2).
    exists t', vals. split; [|by eapply keeps_resolve_args].
    rewrite entries_set_state_ne; [done|].
    intros ->. by eapply (ran_not_pending c d.1 w' t).
  - split.
    + unfold record_run. cbn. rewrite runs_set_state, fmap_app. cbn.
      apply NoDup_app. split_and!; [done | | apply NoDup_singleton].
      intros k Hk Hk'. apply list_elem_of_singleton in Hk' as ->.
      apply list_elem_of_fmap in Hk as ([k w] & Hkw & Hin). cbn in Hkw. subst k.
      by eapply (ran_not_pending c d.1 w t).
    + intros k w Hin. unfold record_run in Hin. cbn in Hin.
      rewrite runs_set_state in Hin. apply elem_of_app in Hin as [Hin|Hin].
      * destruct (Hran k w Hin) as (t' & vals' & H1 & H2).
        exists t', vals'. split; [|by eapply keeps_resolve_args].
        unfold record_run. cbn. rewrite entries_set_state_ne; [done|].
        intros ->. by eapply (ran_not_pending c d.1 w t).
      * apply list_elem_of_singleton in Hin as [= -> ->].
        exists t, vals. split; [|by eapply keeps_resolve_args].
        unfold record_run. cbn. by eapply entries_set_state_eq.
Qed.

Lemma orderly_run c d : orderly c → orderly (run c d).
Proof. exact (orderly_run_case c d _ (run_cases c d) (keeps_run c d)). Qed.

Lemma orderly_progress s : ∀ c, orderly c → orderly (progress s c).
Proof.
  induction s as [|d s IH]; intros c Hc; [done|].
  rewrite progress_cons. by apply IH, orderly_run.
Qed.

Lemma orderly_submitted c t : orderly c → orderly (submitted c t).
Proof.
  intros [Hnd Hran]. split; [done|]. intros k w Hin.
  destruct (Hran k w Hin) as (t' & vals & H1 & H2). exists t', vals. split.
  - unfold submitted. cbn. by apply lookup_app_l_Some.
  - eapply keeps_resolve_args; [apply keeps_submitted | done].
Qed.

Lemma orderly_submitted_all ts : ∀ c, orderly c → orderly (submitted_all c ts).
Proof.
  induction ts as [|t ts IH]; intros c Hc.
  - unfold submitted_all. cbn. rewrite app_nil_r. by destruct c.
  - replace (submitted_all c (t :: ts)) with (submitted_all (submitted c t) ts).
    + by apply IH, orderly_submitted.
    + unfold submitted_all, submitted. cbn. by rewrite <- app_assoc.
Qed.

End Orderly.

Section Entries.

Lemma resolve_args_future c j vals :
  resolve_args c [AFut j] = Ready vals ↔
  ∃ x w, state_of c j = Some (Finished x w) ∧ vals = [x].
Proof.
  unfold resolve_args. cbn. split.
  - destruct (resolve_key c j) as [x| |] eqn:Hk; try done. intros [= <-].
    apply resolve_key_Ready in Hk as [w Hk]. eauto.
  - intros (x & w & Hst & ->).
    assert (resolve_key c j = Ready x) as -> by (apply resolve_key_Ready; eauto). done.
Qed.

Lemma resolve_args_futures c ks vals :
  resolve_args c [AFuts ks] = Ready vals →
  ∃ vs, vals = [VList vs] ∧ resolve_key c <$> ks = Ready <$> vs.
Proof.
  unfold resolve_args. cbn.
  destruct (resolve_all (resolve_key c <$> ks)) as [vs| |] eqn:Hr; try done.
  intros [= <-]. exists vs. split; [done|]. by apply resolve_all_Ready.
Qed.

(** The state of a loader task. *)
Lemma loader_entry g c k rg st :
  consistent c →
  entries c !! k = Some (Task (read_row_group_fn g) [AVal (VRowGroup rg)], st) →
  st = Pending
  ∨ (∃ t w, load g rg = Ok t ∧ st = Finished (VTable t) w)
  ∨ (∃ e w, load g rg = Err e ∧ st = Erred e w k).
Proof.
  intros Hc He. specialize (Hc _ _ _ He).
  destruct st as [|v w|e w o]; cbn in Hc.
  - by left.
  - right; left. destruct Hc as (vals & [= <-] & Hf). cbn in Hf.
    destruct (load g rg) as [t|e]; [|done]. injection Hf as <-. eauto.
  - right; right. destruct Hc as [(-> & vals & [= <-] & Hf)|(d & Hd & _)].
    + cbn in Hf. destruct (load g rg) as [t|e']; [done|]. injection Hf as <-. eauto.
    + by apply elem_of_nil in Hd.
Qed.

(** The state of a task that applies [fn] to the future [j]. *)
Lemma dependent_entry c k fn j st :
  consistent c →
  entries c !! k = Some (Task fn [AFut j], st) →
  match st with
  | Pending => True
  | Finished v w => ∃ x w', state_of c j = Some (Finished x w') ∧ fn [x] = Ok v
  | Erred e w o =>
      (o = k ∧ ∃ x w', state_of c j = Some (Finished x w') ∧ fn [x] = Err e)
      ∨ state_of c j = Some (Erred e w o)
  end.
Proof.
  intros Hc He. specialize (Hc _ _ _ He).
  destruct st as [|v w|e w o]; cbn in Hc; [done | |].
  - destruct Hc as (vals & Hr & Hf).
    apply resolve_args_future in Hr as (x & w' & Hst & ->). eauto.
  - destruct Hc as [(-> & vals & Hr & Hf)|(d & Hd & Hst)].
    + apply resolve_args_future in Hr as (x & w' & Hst & ->). left. eauto.
    + apply list_elem_of_singleton in Hd as ->. by right.
Qed.

End Entries.

Section ExerciseClient.

Lemma exercise_client_spec g rgs s0 s1 s2 :
  sound (exercise_client g rgs s0 s1 s2)
  ∧ orderly (exercise_client g rgs s0 s1 s2)
  ∧ tasks (exercise_client g rgs s0 s1 s2) = exercise_tasks g rgs.
Proof.
  unfold exercise_client.
  set (n := length rgs).
  set (ca := submitted_all connect (loader_tasks g rgs)).
  set (cb := progress s0 ca).
  set (cc := submitted_all cb (count_tasks n)).
  set (cd := progress s1 cc).
  assert (Hla : length (entries cb) = n).
  { unfold cb, ca. rewrite length_entries_progress, length_entries_submitted_all.
    unfold loader_tasks. cbn. by rewrite length_fmap. }
  assert (Hlc : length (entries cd) = n + n).
  { unfold cd, cc. rewrite length_entries_progress, length_entries_submitted_all, Hla.
    unfold count_tasks. by rewrite length_fmap, length_seq. }
  assert (Hsa : sound cb).
  { apply sound_progress, sound_submitted_all; [apply sound_connect|].
    unfold loader_tasks. apply Forall_fmap, Forall_forall. intros rg _. constructor. }
  assert (Hsc : sound cd).
  { apply sound_progress, sound_submitted_all; [done|].
    unfold count_tasks. apply Forall_fmap, Forall_forall. intros i Hi.
    apply elem_of_seq in Hi. unfold issued. cbn. rewrite Hla.
    constructor; [lia | constructor]. }
  assert (Hiss : issued cd [AFuts (seq n n)]).
  { unfold issued. cbn. rewrite app_nil_r, Hlc. apply Forall_forall.
    intros d Hd. apply elem_of_seq in Hd. lia. }
  split_and!.
  - by apply sound_progress, sound_submitted.
  - apply orderly_progress, orderly_submitted, orderly_progress, orderly_submitted_all,
      orderly_progress, orderly_submitted_all, orderly_connect.
  - rewrite tasks_progress, tasks_submitted.
    unfold cd. rewrite tasks_progress. unfold cc. rewrite tasks_submitted_all.
    unfold cb. rewrite tasks_progress. unfold ca. rewrite tasks_submitted_all.
    unfold exercise_tasks. cbn. by rewrite <- app_assoc.
Qed.

(** The exercise is the final wait on the session built before it. *)
Lemma exercise_program g rgs s0 s1 s2 s3 :
  (futures ← futures_cell g rgs;
   _ ← meanwhile s0;
   total_cell futures s1 s2 s3) connect
  = Future.result (length rgs + length rgs) s3 (exercise_client g rgs s0 s1 s2).
Proof.
  unfold exercise_client.
  set (n := length rgs).
  set (ca := submitted_all connect (loader_tasks g rgs)).
  set (cb := progress s0 ca).
  set (cc := submitted_all cb (count_tasks n)).
  set (cd := progress s1 cc).
  set (ce := submitted cd (Task sum [AFuts (seq n n)])).
  assert (Hla : length (entries cb) = n).
  { unfold cb, ca. rewrite length_entries_progress, length_entries_submitted_all.
    unfold loader_tasks. cbn. by rewrite length_fmap. }
  assert (Hlc : length (entries cd) = n + n).
  { unfold cd, cc. rewrite length_entries_progress, length_entries_submitted_all, Hla.
    unfold count_tasks. by rewrite length_fmap, length_seq. }
  assert (Hiss : issued cd [AFuts (seq n n)]).
  { unfold issued. cbn. rewrite app_nil_r, Hlc. apply Forall_forall.
    intros d Hd. apply elem_of_seq in Hd. lia. }
  unfold futures_cell, total_cell.
  unfold mbind at 1. unfold C_bind at 1.
  rewrite (map_submitted_all (read_row_group_fn g) (AVal ∘ VRowGroup <$> rgs) connect).
  2:{ apply Forall_fmap, Forall_forall. intros rg _. constructor. }
  rewrite <- list_fmap_compose. fold (loader_tasks g rgs). fold ca.
  rewrite length_fmap. fold n. cbn [entries connect length].
  unfold mbind at 1. unfold C_bind at 1. unfold meanwhile at 1. fold cb.
  unfold mbind at 1. unfold C_bind at 1.
  rewrite (map_submitted_all f (AFut <$> seq 0 n) cb).
  2:{ apply Forall_fmap, Forall_forall. intros i Hi. apply elem_of_seq in Hi.
      unfold issued. cbn. rewrite Hla. constructor; [lia | constructor]. }
  rewrite <- list_fmap_compose. fold (count_tasks n). fold cc.
  rewrite length_fmap, length_seq, Hla.
  unfold mbind at 1. unfold C_bind at 1. unfold meanwhile at 1. fold cd.
  unfold mbind at 1. unfold C_bind at 1.
  change (progress s1 (submitted_all cb _)) with cd.
  rewrite (submit_spec sum [AFuts (seq n n)] cd Hiss). fold ce. rewrite Hlc.
  unfold mbind at 1. unfold C_bind at 1. unfold meanwhile at 1. done.
Qed.

End ExerciseClient.

Section Outcome.

Variables (g : globals) (rgs : list row_group) (c : Client).
Hypothesis Hsound : sound c.
Hypothesis Htasks : tasks c = exercise_tasks g rgs.
Hypothesis Hcol : "passenger_count" ∈ g_columns g.
Hypothesis Hdt : dtypes (pf g) !! "passenger_count" = Some Int64.

Local Abbreviation n := (length rgs).

Lemma any_loader_state i rg st :
  rgs !! i = Some rg → state_of c i = Some st →
  st = Pending
  ∨ (∃ t w, load g rg = Ok t ∧ st = Finished (VTable t) w)
  ∨ (∃ e w, load g rg = Err e ∧ st = Erred e w i).
Proof.
  intros Hi Hst. eapply loader_entry; [apply Hsound|].
  exact (entry_of_task g rgs c Htasks _ _ _ (loader_task g rgs i rg Hi) Hst).
Qed.

Lemma any_count_state i rg st :
  rgs !! i = Some rg → state_of c (n + i) = Some st →
  st = Pending
  ∨ (∃ t w, load g rg = Ok t ∧ st = Finished (VInt64 (wrap64 (partial g rg))) w)
  ∨ (∃ e w, load g rg = Err e ∧ st = Erred e w i).
Proof.
  intros Hi Hst.
  assert (Hlt : i < n) by (by eapply lookup_lt_Some).
  pose proof (entry_of_task g rgs c Htasks _ _ _ (count_task g rgs i Hlt) Hst) as He.
  pose proof (dependent_entry c _ _ _ _ (proj1 Hsound) He) as Hd.
  assert (Hf : ∀ x w', state_of c i = Some (Finished x w') →
            ∃ t, load g rg = Ok t ∧ f [x] = Ok (VInt64 (wrap64 (partial g rg)))).
  { intros x w' Hx.
    destruct (any_loader_state i rg _ Hi Hx) as [|[(t & w & Ht & [= -> ->])|(e & w & _ & ?)]];
      try done.
    exists t. split; [done|]. unfold partial. rewrite Ht. apply f_countable.
    by eapply load_countable. }
  destruct st as [|v w|e w o].
  - by left.
  - right; left. destruct Hd as (x & w' & Hx & Hfx).
    destruct (Hf x w' Hx) as (t & Ht & Hft). rewrite Hft in Hfx. injection Hfx as <-. eauto.
  - right; right. destruct Hd as [(-> & x & w' & Hx & Hfx)|Herr].
    + destruct (Hf x w' Hx) as (t & Ht & Hft). by rewrite Hft in Hfx.
    + destruct (any_loader_state i rg _ Hi Herr)
        as [|[(t & w' & _ & ?)|(e' & w' & Hl & [= -> -> ->])]]; try done. eauto.
Qed.

Lemma sum_total_value :
  Forall (λ rg, is_Ok (load g rg)) rgs →
  sum [VList (VInt64 <$> (wrap64 <$> (partial g <$> rgs)))] = Ok (total_value g rgs).
Proof.
  intros _. unfold total_value. destruct rgs as [|rg rgs']; [done|].
  rewrite sum_int64 by done. by rewrite wrap64_Zsum_wrap.
Qed.

Lemma ready_counts vals :
  resolve_args c [AFuts (seq n n)] = Ready vals →
  Forall (λ rg, is_Ok (load g rg)) rgs
  ∧ vals = [VList (VInt64 <$> (wrap64 <$> (partial g <$> rgs)))].
Proof.
  intros Hr. apply resolve_args_futures in Hr as (vs & -> & Hr).
  assert (Hlen : length vs = n).
  { apply (f_equal length) in Hr. by rewrite !length_fmap, length_seq in Hr. }
  assert (Hi : ∀ i rg, rgs !! i = Some rg →
            is_Ok (load g rg) ∧ vs !! i = Some (VInt64 (wrap64 (partial g rg)))).
  { intros i rg Hi.
    assert (Hlt : i < n) by (by eapply lookup_lt_Some).
    apply (f_equal (λ l, l !! i)) in Hr.
    rewrite !list_lookup_fmap, lookup_seq_lt in Hr by done. cbn in Hr.
    destruct (vs !! i) as [v|] eqn:Hv; cbn in Hr; [|done].
    injection Hr as Hk. apply resolve_key_Ready in Hk as [w Hk].
    destruct (any_count_state i rg _ Hi Hk)
      as [|[(t & w' & Ht & [= -> ->])|(e & w' & _ & ?)]]; try done.
    split; [by exists t | done]. }
  split.
  - apply Forall_forall. intros rg Hin.
    apply list_elem_of_lookup in Hin as [i Hin]. by apply (Hi i rg).
  - do 2 f_equal. apply list_eq. intros i. rewrite !list_lookup_fmap.
    destruct (rgs !! i) as [rg|] eqn:Hrg; cbn.
    + by apply Hi.
    + apply lookup_ge_None in Hrg. apply lookup_ge_None. lia.
Qed.

Lemma any_total_state st :
  state_of c (n + n) = Some st →
  st = Pending
  ∨ (Forall (λ rg, is_Ok (load g rg)) rgs ∧ ∃ w, st = Finished (total_value g rgs) w)
  ∨ (∃ i rg e w, rgs !! i = Some rg ∧ load g rg = Err e ∧ st = Erred e w i).
Proof.
  intros Hst.
  pose proof (entry_of_task g rgs c Htasks _ _ _ (sum_task g rgs) Hst) as He.
  destruct Hsound as [Hc _]. specialize (Hc _ _ _ He).
  destruct st as [|v w|e w o]; cbn in Hc.
  - by left.
  - right; left. destruct Hc as (vals & Hr & Hfv).
    destruct (ready_counts _ Hr) as [Hok ->]. split; [done|].
    rewrite (sum_total_value Hok) in Hfv. injection Hfv as <-. eauto.
  - right; right. destruct Hc as [(_ & vals & Hr & Hfv)|(d & Hd & Hdst)].
    + destruct (ready_counts _ Hr) as [Hok ->].
      by rewrite (sum_total_value Hok) in Hfv.
    + rewrite app_nil_r in Hd. apply elem_of_seq in Hd.
      destruct (lookup_lt_is_Some_2 rgs (d - n)) as [rg Hrg]; [lia|].
      replace d with (n + (d - n)) in Hdst by lia.
      destruct (any_count_state _ rg _ Hrg Hdst)
        as [|[(t & w' & _ & ?)|(e' & w' & Hl & [= -> -> ->])]]; try done.
      by exists (d - n), rg, e', w'.
Qed.

End Outcome.

Section Totals.

Lemma total_passengers_result g rgs s0 s1 s2 s3 :
  total_passengers g rgs s0 s1 s2 s3
  = (Future.result (length rgs + length rgs) s3 (exercise_client g rgs s0 s1 s2)).1.
Proof. unfold total_passengers. by rewrite exercise_program. Qed.

Lemma final_sound g rgs s0 s1 s2 s3 :
  sound (progress s3 (exercise_client g rgs s0 s1 s2))
  ∧ orderly (progress s3 (exercise_client g rgs s0 s1 s2))
  ∧ tasks (progress s3 (exercise_client g rgs s0 s1 s2)) = exercise_tasks g rgs.
Proof.
  destruct (exercise_client_spec g rgs s0 s1 s2) as (H1 & H2 & H3).
  split_and!; [by apply sound_progress | by apply orderly_progress |
                by rewrite tasks_progress].
Qed.

Lemma final_state g rgs s0 s1 s2 s3 :
  ∃ st, state_of (progress s3 (exercise_client g rgs s0 s1 s2))
          (length rgs + length rgs) = Some st.
Proof.
  destruct (final_sound g rgs s0 s1 s2 s3) as (_ & _ & Ht).
  set (c := progress s3 _) in *.
  assert (Hlen : length (entries c) = 2 * length rgs + 1).
  { rewrite <- length_tasks, Ht. unfold exercise_tasks, loader_tasks, count_tasks.
    rewrite !length_app, !length_fmap, length_seq. cbn. lia. }
  destruct (lookup_lt_is_Some_2 (entries c) (length rgs + length rgs)) as [[t st] H];
    [lia|].
  exists st. apply state_of_Some. eauto.
Qed.



Lemma filter_none {A} (P : A → Prop) `{∀ x, Decision (P x)} (l : list A) :
  Forall (λ x, ¬ P x) l → filter P l = [].
Proof.
  induction 1 as [|x l Hx _ IH]; [done|]. by rewrite filter_cons_False.
Qed.

Lemma executions_NoDup c k : NoDup (runs c).*1 → executions c k ≤ 1.
Proof.
  unfold executions. induction (runs c) as [|d l IH]; [cbn; lia|].
  cbn [fmap list_fmap]. intros [Hd Hl]%NoDup_cons.
  destruct (decide (d.1 = k)) as [E|E].
  - rewrite filter_cons_True by done. cbn.
    assert (filter (λ d0, d0.1 = k) l = []) as ->; [|cbn; lia].
    apply filter_none. apply Forall_forall. intros d' Hin E'.
    apply Hd. rewrite E, <- E'. apply list_elem_of_fmap. eauto.
  - rewrite filter_cons_False by done. by apply IH.
Qed.

Lemma progress_nothing s : progress s connect = connect.
Proof. induction s as [|d s IH]; [done|]. by rewrite progress_cons. Qed.

End Totals.

(** X7. With [passenger_count] an [int64] column, the exercise returns a
    total only if every row group loaded; whatever it raises besides
    [Timeout] is the failure of a loader, with the error that loading
    that row group gives, the worker that ran it and its task; and when a
    row group cannot be loaded, a wait during which the tasks are taken
    in key order raises such a failure. *)
Theorem total_needs_every_row_group (g : globals) (rgs : list row_group)
    (s0 s1 s2 s3 : list (key * worker)) :
  "passenger_count" ∈ g_columns g →
  dtypes (pf g) !! "passenger_count" = Some Int64 →
  (∀ v, total_passengers g rgs s0 s1 s2 s3 = Ok v →
     Forall (λ rg, is_Ok (load g rg)) rgs)
  ∧ (∀ err, total_passengers g rgs s0 s1 s2 s3 = Err err →
       err = Timeout
       ∨ ∃ i rg e w, rgs !! i = Some rg ∧ load g rg = Err e
           ∧ err = RemoteTaskFailure e w i)
  ∧ (Exists (λ rg, ¬ is_Ok (load g rg)) rgs →
     seq 0 (2 * length rgs + 1) `sublist_of` s3.*1 →
     ∃ i rg e w, rgs !! i = Some rg ∧ load g rg = Err e
       ∧ total_passengers g rgs s0 s1 s2 s3 = Err (RemoteTaskFailure e w i)).
Proof.
  intros Hcol Hdt. rewrite total_passengers_result.
  destruct (result_state (length rgs + length rgs) s3 (exercise_client g rgs s0 s1 s2))
    as [-> _].
  destruct (final_sound g rgs s0 s1 s2 s3) as (Hs & _ & Ht).
  destruct (final_state g rgs s0 s1 s2 s3) as [st Hst]. rewrite Hst.
  destruct (any_total_state g rgs _ Hs Ht Hcol Hdt st Hst)
    as [->|[(Hok & w & ->)|(i & rg & e & w & Hi & Hl & ->)]].
  - split_and!; [done | intros err [= <-]; by left |].
    intros _ Hsub. exfalso.
    destruct (exercise_client_spec g rgs s0 s1 s2) as ([_ Hac] & _ & Ht0).
    assert (Hall : settled_below (progress s3 (exercise_client g rgs s0 s1 s2))
                     (2 * length rgs + 1)).
    { apply (sweep_settles _ s3 0); [done | | intros k Hk; lia | by rewrite Nat.sub_0_r].
      rewrite <- length_tasks, Ht0. unfold exercise_tasks, loader_tasks, count_tasks.
      rewrite !length_app, !length_fmap, length_seq. cbn. lia. }
    destruct (Hall (length rgs + length rgs)) as (st & Hst' & Hp); [lia|]. congruence.
  - split_and!; [done | done |].
    intros Hex _. exfalso. apply Exists_exists in Hex as (rg & Hin & Hno).
    rewrite Forall_forall in Hok. by apply Hno, Hok.
  - split_and!; [done | |].
    + intros err [= <-]. right. by exists i, rg, e, w.
    + intros _ _. by exists i, rg, e, w.
Qed.

Lemma total_needs_every_row_group_witness :
  ∃ i rg e w, [rg_a; rg_missing] !! i = Some rg ∧ load taxi rg = Err e
    ∧ total_passengers taxi [rg_a; rg_missing] [] [] []
        [(0, 0); (1, 1); (2, 0); (3, 1); (4, 0)] = Err (RemoteTaskFailure e w i).
Proof.
  destruct (total_needs_every_row_group taxi [rg_a; rg_missing] [] [] []
              [(0, 0); (1, 1); (2, 0); (3, 1); (4, 0)]) as (_ & _ & H).
  - compute_done.
  - by vm_compute.
  - apply H.
    + apply Exists_cons_tl, Exists_cons_hd. intros [t Ht]. by vm_compute in Ht.
    + done.
Defined.



(** X9. On a dataset without row groups the exercise submits the
    combiner alone: once it has run, the total is the Python int 0,
    whereas the local computation raises [ValueError], there being
    nothing to concatenate. *)
Theorem total_of_no_row_groups (g : globals) (s0 s1 s2 s3 : list (key * worker)) :
  local_total g [] = Err (PyExn "ValueError")
  ∧ (0 ∈ (s2 ++ s3).*1 → total_passengers g [] s0 s1 s2 s3 = Ok (VInt 0))
  ∧ (0 ∉ (s2 ++ s3).*1 → total_passengers g [] s0 s1 s2 s3 = Err Timeout).
Proof.
  split; [done|].
  rewrite total_passengers_result.
  destruct (result_state 0 s3 (exercise_client g [] s0 s1 s2)) as [E _].
  cbn [length Nat.add]. rewrite E. clear E.
  unfold exercise_client. rewrite <- progress_app.
  cbn [length loader_tasks count_tasks fmap list_fmap seq].
  change (submitted_all connect []) with connect. rewrite progress_nothing.
  change (submitted_all connect []) with connect. rewrite progress_nothing.
  destruct (progress_ready 0 (Task sum [AFuts []]) [VList []] (s2 ++ s3)
              (submitted connect (Task sum [AFuts []])))
    as [[Hn ->]|(w & Hw & ->)]; [done | done | |].
  - split; [done | done].
  - split; [done|]. intros Hn. exfalso. apply Hn.
    apply list_elem_of_fmap. by exists (0, w).
Qed.

Section Chain.

Lemma chain_client_spec g rg s1 s2 :
  sound (chain_client g rg s1 s2)
  ∧ orderly (chain_client g rg s1 s2)
  ∧ tasks (chain_client g rg s1 s2)
    = [Task (read_row_group_fn g) [AVal (VRowGroup rg)]; Task len [AFut 0]].
Proof.
  unfold chain_client.
  set (ca := submitted connect _). set (cb := progress s1 ca).
  assert (Hsa : sound cb).
  { apply sound_progress, sound_submitted; [apply sound_connect | constructor]. }
  assert (Hlb : length (entries cb) = 1).
  { unfold cb. by rewrite length_entries_progress. }
  split_and!.
  - apply sound_progress, sound_submitted; [done|].
    unfold issued. cbn. rewrite Hlb. repeat constructor.
  - apply orderly_progress, orderly_submitted, orderly_progress, orderly_submitted,
      orderly_connect.
  - rewrite tasks_progress, tasks_submitted. unfold cb. rewrite tasks_progress.
    unfold ca. by rewrite tasks_submitted.
Qed.

Lemma chain_program g rg s1 s2 s3 s4 :
  row_groups (pf g) !! 0 = Some rg →
  chain_cells g s1 s2 s3 s4 connect
  = (n ← Future.result 1 s3; local_df ← Future.result 0 s4; mret (n, local_df))
      (chain_client g rg s1 s2).
Proof.
  intros Hrg. unfold chain_cells, chain_client, first_row_group, lift. rewrite Hrg.
  unfold mbind at 1. unfold C_bind at 1.
  unfold mbind at 1. unfold C_bind at 1.
  rewrite submit_spec by constructor.
  cbn [entries connect length].
  set (ca := submitted connect _).
  unfold mbind at 1. unfold C_bind at 1. unfold meanwhile at 1.
  set (cb := progress s1 ca).
  assert (Hlb : length (entries cb) = 1).
  { unfold cb. by rewrite length_entries_progress. }
  unfold mbind at 1. unfold C_bind at 1.
  rewrite submit_spec by (unfold issued; cbn; rewrite Hlb; repeat constructor).
  rewrite Hlb.
  unfold mbind at 1. unfold C_bind at 1. unfold meanwhile at 1. done.
Qed.

Lemma chain_empty g s1 s2 s3 s4 :
  row_groups (pf g) !! 0 = None →
  chain_cells g s1 s2 s3 s4 connect = (Err (PyExn "IndexError"), connect).
Proof.
  intros Hrg. unfold chain_cells, first_row_group, lift. by rewrite Hrg.
Qed.

Variables (g : globals) (rg : row_group) (c : Client).
Hypothesis Hsound : sound c.
Hypothesis Htasks :
  tasks c = [Task (read_row_group_fn g) [AVal (VRowGroup rg)]; Task len [AFut 0]].

Lemma chain_entry k t st :
  [Task (read_row_group_fn g) [AVal (VRowGroup rg)]; Task len [AFut 0]] !! k = Some t →
  state_of c k = Some st → entries c !! k = Some (t, st).
Proof.
  intros Ht Hst. apply state_of_Some in Hst as [t' Hk].
  assert (tasks c !! k = Some t') as H by (apply task_lookup; eauto).
  rewrite Htasks in H. congruence.
Qed.

Lemma chain_loader_state st :
  state_of c 0 = Some st →
  st = Pending
  ∨ (∃ t w, load g rg = Ok t ∧ st = Finished (VTable t) w)
  ∨ (∃ e w, load g rg = Err e ∧ st = Erred e w 0).
Proof.
  intros Hst. eapply loader_entry; [apply Hsound|].
  by apply chain_entry.
Qed.

Lemma chain_len_state st :
  state_of c 1 = Some st →
  st = Pending
  ∨ (∃ t w w', load g rg = Ok t ∧ state_of c 0 = Some (Finished (VTable t) w')
       ∧ st = Finished (VInt (Z.of_nat (df_len t))) w)
  ∨ (∃ e w, load g rg = Err e ∧ st = Erred e w 0).
Proof.
  intros Hst.
  pose proof (chain_entry 1 _ st eq_refl Hst) as He.
  pose proof (dependent_entry c _ _ _ _ (proj1 Hsound) He) as Hd.
  destruct st as [|v w|e w o].
  - by left.
  - right; left. destruct Hd as (x & w' & Hx & Hfx).
    destruct (chain_loader_state _ Hx) as [|[(t & w0 & Ht & [= -> ->])|(e & w0 & _ & ?)]];
      try done.
    cbn in Hfx. injection Hfx as <-. by exists t, w, w0.
  - right; right. destruct Hd as [(_ & x & w' & Hx & Hfx)|Herr].
    + destruct (chain_loader_state _ Hx) as [|[(t & w0 & Ht & [= -> ->])|(e' & w0 & _ & ?)]];
        done.
    + destruct (chain_loader_state _ Herr)
        as [|[(t & w0 & _ & ?)|(e' & w0 & Hl & [= -> -> ->])]]; try done. eauto.
Qed.

End Chain.

Section ChainOutcome.

Lemma chain_waits c0 s3 s4 :
  (n ← Future.result 1 s3; local_df ← Future.result 0 s4; mret (n, local_df)) c0
  = match (Future.result 1 s3 c0).1 with
    | Ok n =>
        match (Future.result 0 s4 (progress s3 c0)).1 with
        | Ok df => (Ok (n, df), progress s4 (progress s3 c0))
        | Err e => (Err e, progress s4 (progress s3 c0))
        end
    | Err e => (Err e, progress s3 c0)
    end.
Proof.
  unfold mbind at 1. unfold C_bind at 1.
  destruct (result_state 1 s3 c0) as [E1 E2].
  destruct (Future.result 1 s3 c0) as [[n|e] c3]; cbn in E2; subst c3; [|done].
  unfold mbind at 1. unfold C_bind at 1.
  destruct (result_state 0 s4 (progress s3 c0)) as [E3 E4].
  destruct (Future.result 0 s4 (progress s3 c0)) as [[df|e] c4]; cbn in E4; by subst c4.
Qed.

Lemma chain_progress_spec g rg s1 s2 s :
  sound (progress s (chain_client g rg s1 s2))
  ∧ orderly (progress s (chain_client g rg s1 s2))
  ∧ tasks (progress s (chain_client g rg s1 s2))
    = [Task (read_row_group_fn g) [AVal (VRowGroup rg)]; Task len [AFut 0]].
Proof.
  destruct (chain_client_spec g rg s1 s2) as (H1 & H2 & H3).
  split_and!; [by apply sound_progress | by apply orderly_progress |
                by rewrite tasks_progress].
Qed.

Lemma chain_state g rg s1 s2 s k :
  k < 2 → ∃ st, state_of (progress s (chain_client g rg s1 s2)) k = Some st.
Proof.
  intros Hk. destruct (chain_progress_spec g rg s1 s2 s) as (_ & _ & Ht).
  set (c := progress s _) in *.
  assert (Hlen : length (entries c) = 2) by (by rewrite <- length_tasks, Ht).
  destruct (lookup_lt_is_Some_2 (entries c) k) as [[t st] H]; [lia|].
  exists st. apply state_of_Some. eauto.
Qed.

(** The outcome of the two waits, by the state of the length future when
    the first wait ends. *)
Lemma chain_outcome g rg s1 s2 s3 s4 :
  row_groups (pf g) !! 0 = Some rg →
  let c3 := progress s3 (chain_client g rg s1 s2) in
  (state_of c3 1 = Some Pending
   ∧ chain_cells g s1 s2 s3 s4 connect = (Err Timeout, c3))
  ∨ (∃ t, load g rg = Ok t
      ∧ chain_cells g s1 s2 s3 s4 connect
        = (Ok (VInt (Z.of_nat (num_rows rg)), VTable t), progress s4 c3))
  ∨ (∃ e w, load g rg = Err e
      ∧ chain_cells g s1 s2 s3 s4 connect = (Err (RemoteTaskFailure e w 0), c3)).
Proof.
  intros Hrg c3. rewrite (chain_program g rg) by done. rewrite chain_waits.
  destruct (result_state 1 s3 (chain_client g rg s1 s2)) as [-> _]. fold c3.
  destruct (chain_progress_spec g rg s1 s2 s3) as (Hs & _ & Ht). fold c3 in Hs, Ht.
  destruct (chain_state g rg s1 s2 s3 1) as [st Hst]; [lia|]. fold c3 in Hst.
  rewrite Hst.
  destruct (chain_len_state g rg c3 Hs Ht st Hst)
    as [->|[(t & w & w' & Hl & H0 & ->)|(e & w & Hl & ->)]].
  - by left.
  - right; left. exists t. split; [done|].
    destruct (result_state 0 s4 c3) as [-> _].
    rewrite (keeps_progress s4 c3 0 _ H0) by done.
    destruct (run_loader_spec g rg) as (_ & _ & Hok).
    destruct (Hok t Hl) as (<- & _ & _). done.
  - right; right. by exists e, w.
Qed.

End ChainOutcome.





(** X13. The chained cells fail in three ways only: [IndexError] on a
    dataset without row groups, before anything is submitted; [Timeout];
    or the failure of the loader, with the error that loading the first
    row group gives, raised by the wait on the length. When the first
    row group cannot be loaded, [len] is never run. *)
Theorem chain_failures (g : globals) (s1 s2 s3 s4 : list (key * worker)) :
  (∀ err, (chain_cells g s1 s2 s3 s4 connect).1 = Err err →
     (err = PyExn "IndexError" ∧ row_groups (pf g) = []
      ∧ (chain_cells g s1 s2 s3 s4 connect).2 = connect)
     ∨ err = Timeout
     ∨ ∃ rg e w, row_groups (pf g) !! 0 = Some rg ∧ load g rg = Err e
         ∧ err = RemoteTaskFailure e w 0)
  ∧ (∀ rg, row_groups (pf g) !! 0 = Some rg → ¬ is_Ok (load g rg) →
       executions (chain_cells g s1 s2 s3 s4 connect).2 1 = 0).
Proof.
  split.
  - intros err H. destruct (row_groups (pf g) !! 0) as [rg|] eqn:Hrg.
    + destruct (chain_outcome g rg s1 s2 s3 s4 Hrg)
        as [[_ E]|[(t & Hl & E)|(e & w & Hl & E)]]; rewrite E in H; try done.
      * injection H as <-. right; by left.
      * injection H as <-. right; right. by exists rg, e, w.
    + rewrite chain_empty in * by done. injection H as <-. left.
      split_and!; [done | | done].
      by destruct (row_groups (pf g)).
  - intros rg Hrg Hno.
    assert (∃ s, (chain_cells g s1 s2 s3 s4 connect).2
                 = progress s (chain_client g rg s1 s2)) as [s ->].
    { destruct (chain_outcome g rg s1 s2 s3 s4 Hrg)
        as [[_ ->]|[(t & Hl & ->)|(e & w & Hl & ->)]]; cbn; eauto.
      exists (s3 ++ s4). by rewrite progress_app. }
    destruct (chain_progress_spec g rg s1 s2 s) as ([Hc Hac] & [_ Hran] & Ht).
    set (c := progress s _) in *.
    unfold executions. rewrite filter_none; [done|].
    apply Forall_forall. intros [k w] Hin Hk. cbn in Hk. subst k.
    destruct (Hran _ _ Hin) as (t & vals & He & Hr).
    assert (Htk : tasks c !! 1 = Some t) by (apply task_lookup; eauto).
    rewrite Ht in Htk. injection Htk as <-.
    cbn in Hr. apply resolve_args_future in Hr as (x & w' & Hx & _).
    destruct (chain_loader_state g rg c (conj Hc Hac) Ht _ Hx)
      as [|[(t & w0 & Hl & _)|(e & w0 & _ & ?)]]; try done.
    apply Hno. by exists t.
Qed.

Section Mean.

Lemma col_total_cells cols : col_total cols = Zsum (col_cells cols).
Proof. unfold col_total, col_cells. by destruct (getattr cols _). Qed.







End Mean.



(** The mean of the per-chunk means is another number when the chunks
    differ in size. *)
Example mean_of_means_differs :
  mean_of_means [one_ride; three_rides] = Ok (22 # 6)%Q
  ∧ global_mean [one_ride; three_rides] = Ok (10 # 4)%Q
  ∧ ¬ (22 # 6 == 10 # 4)%Q.
Proof. split_and!; [by vm_compute | by vm_compute | unfold Qeq; cbn; lia]. Qed.
